(** * A model of [app.py]: natural-language questions answered over MySQL

    The program is one linear pipeline per question:
    fetch the schema, prompt the model, guard the SQL, execute, summarise.
    This development embeds it function by function.

    - [Text]: Python [str] values, with [str.strip], [str.rstrip],
      [str.lower], [str.join] and the two regular expressions of
      [generate_sql].
    - [Py]: exceptions and the state-and-error monad in which the
      effectful functions live; every call that leaves the process is
      recorded in a trace.
    - [App]: [get_schema_ddl], [generate_sql], [run_sql], [summarize] and
      [main], over an abstract database and model service.
    - [Script]: a scripted database and model service on which the
      functions compute.

    The facts follow the definitions: text and the two patterns, the
    guardrail, the monad, the pipeline and the loop, the schema
    snapshot, and runs on the scripted world. *)

From Stdlib Require Import List Bool Ascii String Arith Lia.
Import ListNotations.

Set Implicit Arguments.

(** ** Text *)

Module Text.

(** A Python [str] is a sequence of code points.  The model keeps the
    code points U+0000 to U+00FF (one [ascii] each), classified as
    CPython classifies them. *)
Definition pystr := list ascii.

Definition code (c : ascii) : nat := nat_of_ascii c.

Definition between (lo hi n : nat) : bool := (lo <=? n) && (n <=? hi).

(** [Py_UNICODE_ISSPACE]: the set used by [str.strip] and by [\s]. *)
Definition is_space (c : ascii) : bool :=
  let n := code c in
  between 9 13 n || between 28 32 n || (n =? 133) || (n =? 160).

(** [Py_UNICODE_ISDECIMAL]: the set of [\d]. *)
Definition is_digit (c : ascii) : bool := between 48 57 (code c).

(** [str.isalpha] on one code point. *)
Definition is_alpha (c : ascii) : bool :=
  let n := code c in
  between 65 90 n || between 97 122 n || (n =? 170) || (n =? 181)
  || (n =? 186) || between 192 214 n || between 216 246 n
  || between 248 255 n.

(** Code points that are digits or numeric without being decimal:
    superscript 2, 3, 1 and the three vulgar fractions. *)
Definition is_numeric_extra (c : ascii) : bool :=
  let n := code c in
  (n =? 178) || (n =? 179) || (n =? 185) || between 188 190 n.

(** The set of [\w]: [Py_UNICODE_ISALNUM] or an underscore. *)
Definition is_word (c : ascii) : bool :=
  is_alpha c || is_digit c || is_numeric_extra c || (code c =? 95).

(** [str.lower] on one code point. *)
Definition lower_char (c : ascii) : ascii :=
  let n := code c in
  if between 65 90 n || between 192 214 n || between 216 222 n
  then ascii_of_nat (n + 32) else c.

Definition lower (s : pystr) : pystr := map lower_char s.

(** String literals. *)
Definition lit (s : string) : pystr := list_ascii_of_string s.
Arguments lit s%_string.

Definition nl : pystr := [ascii_of_nat 10].

Definition pystr_eqb (a b : pystr) : bool :=
  if list_eq_dec ascii_dec a b then true else false.

(** *** Stripping *)

Fixpoint drop_while (p : ascii -> bool) (s : pystr) : pystr :=
  match s with
  | [] => []
  | c :: s' => if p c then drop_while p s' else s
  end.

(** Drop the longest suffix whose characters satisfy [p]. *)
Fixpoint drop_while_end (p : ascii -> bool) (s : pystr) : pystr :=
  match s with
  | [] => []
  | c :: s' =>
      match drop_while_end p s' with
      | [] => if p c then [] else [c]
      | r => c :: r
      end
  end.

(** [s.lstrip()], [s.rstrip()], [s.strip()]. *)
Definition lstrip (s : pystr) : pystr := drop_while is_space s.
Definition rstrip (s : pystr) : pystr := drop_while_end is_space s.
Definition strip (s : pystr) : pystr := rstrip (lstrip s).

(** [s.rstrip(chars)]. *)
Definition mem_char (chars : pystr) (c : ascii) : bool :=
  existsb (Ascii.eqb c) chars.
Definition rstrip_chars (chars : pystr) (s : pystr) : pystr :=
  drop_while_end (mem_char chars) s.

(** [sep.join(parts)]. *)
Fixpoint join (sep : pystr) (parts : list pystr) : pystr :=
  match parts with
  | [] => []
  | [p] => p
  | p :: ps => p ++ sep ++ join sep ps
  end.

Fixpoint starts_with (p s : pystr) : bool :=
  match p, s with
  | [], _ => true
  | _ :: _, [] => false
  | a :: p', b :: s' => Ascii.eqb a b && starts_with p' s'
  end.

Definition ends_with (p s : pystr) : bool := starts_with (rev p) (rev s).

(** [p in s] for strings. *)
Fixpoint contains (p s : pystr) : bool :=
  starts_with p s ||
  match s with
  | [] => false
  | _ :: s' => contains p s'
  end.

(** *** The regular expressions of [generate_sql]

    Both patterns carry the flag [i]; a lower-case pattern letter matches
    a character whose lower-case form it is. *)

Fixpoint match_literal_ic (pat s : pystr) : option (pystr * pystr) :=
  match pat, s with
  | [], _ => Some ([], s)
  | _ :: _, [] => None
  | a :: pat', c :: s' =>
      if Ascii.eqb (lower_char c) a then
        match match_literal_ic pat' s' with
        | Some (m, rest) => Some (c :: m, rest)
        | None => None
        end
      else None
  end.

(** [\b] between the character before the position and the one after:
    exactly one side is a word character; the ends of the text count as
    non-word. *)
Definition word_opt (c : option ascii) : bool :=
  match c with Some x => is_word x | None => false end.
Definition at_boundary (prev next : option ascii) : bool :=
  xorb (word_opt prev) (word_opt next).

(** The longest run of characters satisfying [p], and what follows.  A
    greedy [\s*], [\s+] or [\d+] takes this run; in the two patterns
    below, giving part of it back never lets the rest of the pattern
    match (see [matches_select_iff] and [matches_limit_iff]). *)
Fixpoint span (p : ascii -> bool) (s : pystr) : pystr * pystr :=
  match s with
  | [] => ([], [])
  | c :: s' =>
      if p c then let (a, b) := span p s' in (c :: a, b) else ([], s)
  end.

Definition last_opt (s : pystr) : option ascii :=
  match rev s with [] => None | c :: _ => Some c end.

(** The keyword [pat] at the start of [r], ended by a word boundary:
    [pat\b] matched at the start, case ignored. *)
Definition keyword_first (pat r : pystr) : bool :=
  match match_literal_ic pat r with
  | Some (kw, rest) => at_boundary (last_opt kw) (hd_error rest)
  | None => false
  end.

(** [re.match(r"(?is)^\s*select\b", s)]: leading whitespace, the keyword,
    then a word boundary. *)
Definition match_select (s : pystr) : bool :=
  let (_, r) := span is_space s in keyword_first (lit "select") r.

(** [\blimit\s+\d+\b] tried at one position; [prev] is the character
    before it. *)
Definition limit_at (prev : option ascii) (s : pystr) : bool :=
  at_boundary prev (hd_error s) &&
  match match_literal_ic (lit "limit") s with
  | None => false
  | Some (_, r) =>
      let (sp, r1) := span is_space r in
      let (ds, r2) := span is_digit r1 in
      match sp, ds with
      | _ :: _, _ :: _ => at_boundary (last_opt ds) (hd_error r2)
      | _, _ => false
      end
  end.

(** [re.search]: the pattern tried at every position, left to right. *)
Fixpoint search_limit (prev : option ascii) (s : pystr) : bool :=
  limit_at prev s ||
  match s with
  | [] => false
  | c :: s' => search_limit (Some c) s'
  end.

(** [re.search(r"(?is)\blimit\s+\d+\b", s)] *)
Definition has_limit (s : pystr) : bool := search_limit None s.

(** *** The two patterns read as regular expressions

    What the patterns denote, with no order of search and no greediness:
    the text splits into the pieces that the parts of the pattern match.
    [select_pattern_iff] and [limit_pattern_iff] show that the functions
    above decide these. *)

(** [^\s*select\b]: whitespace, then the keyword in any case, then a
    word boundary. *)
Definition select_pattern (s : pystr) : Prop :=
  exists ws kw rest,
    s = ws ++ kw ++ rest /\
    forallb is_space ws = true /\
    lower kw = lit "select" /\
    at_boundary (last_opt kw) (hd_error rest) = true.

(** [\blimit\s+\d+\b] somewhere: after any text [pre], a word boundary,
    the keyword in any case, one or more whitespace characters, one or
    more digits, a word boundary. *)
Definition limit_pattern (s : pystr) : Prop :=
  exists pre kw sp ds post,
    s = pre ++ kw ++ sp ++ ds ++ post /\
    at_boundary (last_opt pre) (hd_error kw) = true /\
    lower kw = lit "limit" /\
    sp <> [] /\ forallb is_space sp = true /\
    ds <> [] /\ forallb is_digit ds = true /\
    at_boundary (last_opt ds) (hd_error post) = true.

End Text.

(** ** Exceptions, values and the effect monad *)

Module Py.
Import Text.

(** The exception classes the program can meet.  All but
    [KeyboardInterrupt] derive from [Exception]. *)
Inductive exn_class :=
| ValueError | TypeError | IndexError | EOFError
| DatabaseError       (* mysql.connector.Error *)
| ModelServiceError   (* openai.OpenAIError *)
| KeyboardInterrupt.

Record exn := Exn { exn_kind : exn_class; exn_msg : pystr }.

(** [isinstance(e, Exception)] *)
Definition is_Exception (e : exn) : bool :=
  match exn_kind e with KeyboardInterrupt => false | _ => true end.

(** [str(e)] *)
Definition str_exn (e : exn) : pystr := exn_msg e.

Definition result (A : Type) : Type := (exn + A)%type.

(** A cell of a database row: a [str], or a value of another type known
    by its [str()] rendering. *)
Inductive value :=
| VStr (s : pystr)
| VNonStr (shown : pystr).

(** [str(v)], as an f-string field formats it. *)
Definition str_value (v : value) : pystr :=
  match v with VStr s => s | VNonStr r => r end.

(** A row is a tuple of cells. *)
Definition row := list value.

(** One entry of [cursor.description]; entry 0 of the tuple is the
    column name. *)
Record column_descriptor := ColumnDescriptor { d0 : pystr; d1 : nat }.

(** A message of the [input] list given to the model service. *)
Record message := Message { role : pystr; content : pystr }.

(** What the model service answers: an object that may carry an
    [output_text] attribute. *)
Record response := Response { output_text : option pystr }.

(** The connection keywords of [DB_CFG]. *)
Record db_cfg := DbCfg {
  cfg_host : pystr; cfg_port : nat; cfg_user : pystr;
  cfg_password : pystr; cfg_database : pystr }.

(** The preview object built by [summarize]. *)
Record preview := Preview { columns : list pystr; rows : list row }.

(** Everything the process does to the outside, in order. *)
Inductive event :=
| EvConnect (cfg : db_cfg)
| EvCursor
| EvExecute (operation : pystr) (params : list pystr)
| EvFetchall
| EvFetchone
| EvClose
| EvCreate (model : pystr) (input : list message)
| EvInput (prompt : pystr)
| EvPrint (args : list pystr).

(** The database client, the model client and the two library functions
    the program calls, over a state [World] of the outside. *)
Class Environment (World Conn Cursor : Type) := {
  mysql_connect : db_cfg -> World -> result Conn * World;
  cn_cursor : Conn -> World -> result Cursor * World;
  cn_close : Conn -> World -> result unit * World;
  cur_execute : Cursor -> pystr -> list pystr -> World -> result unit * World;
  cur_fetchall : Cursor -> World -> result (list row) * World;
  cur_fetchone : Cursor -> World -> result (option row) * World;
  cur_description : Cursor -> World -> option (list column_descriptor);
  responses_create : pystr -> list message -> World -> result response * World;
  tabulate : list row -> list pystr -> pystr;
  json_dumps : preview -> pystr
}.

Section Monad.
Variable World : Type.

Record state := State { world : World; trace : list event }.

(** A computation changes the state and returns or raises; the state
    changes made before a raise stay. *)
Definition M (A : Type) : Type := state -> result A * state.

Definition ret {A} (a : A) : M A := fun s => (inr a, s).

Definition raise {A} (e : exn) : M A := fun s => (inl e, s).

Definition bind {A B} (m : M A) (k : A -> M B) : M B :=
  fun s =>
    match m s with
    | (inl e, s') => (inl e, s')
    | (inr a, s') => k a s'
    end.

(** Record an event. *)
Definition emit (ev : event) : M unit :=
  fun s => (inr tt, State (world s) (trace s ++ [ev])).

(** Call out: the event is recorded, then the outside answers. *)
Definition call {A} (ev : event) (h : World -> result A * World) : M A :=
  fun s =>
    let (r, w) := h (world s) in
    (r, State w (trace s ++ [ev])).

(** Read an attribute of an outside object: no call is made. *)
Definition peek {A} (f : World -> A) : M A :=
  fun s => (inr (f (world s)), s).

(** [try: body finally: fin] *)
Definition try_finally {A} (body : M A) (fin : M unit) : M A :=
  fun s =>
    let (r, s1) := body s in
    match fin s1 with
    | (inl e, s2) => (inl e, s2)
    | (inr _, s2) => (r, s2)
    end.

(** [try: body except Exception as e: handler(e)] *)
Definition try_except {A} (body : M A) (handler : exn -> M A) : M A :=
  fun s =>
    match body s with
    | (inl e, s1) => if is_Exception e then handler e s1 else (inl e, s1)
    | (inr a, s1) => (inr a, s1)
    end.

(** [print]: what it writes is the arguments separated by one space,
    then a newline (see [printed]). *)
Definition print (args : list pystr) : M unit := emit (EvPrint args).

(** [appends P m]: running [m] only adds events at the end of the trace,
    and what it adds satisfies [P]. *)
Definition appends {A} (P : list event -> Prop) (m : M A) : Prop :=
  forall s, exists d, trace (snd (m s)) = trace s ++ d /\ P d.

End Monad.

Definition printed (args : list pystr) : pystr := join (lit " ") args ++ nl.

End Py.

Declare Scope py_scope.
Delimit Scope py_scope with py.
Notation "x <- m ;; k" := (Py.bind m (fun x => k))
  (at level 61, m at next level, right associativity) : py_scope.
Notation "m ;;; k" := (Py.bind m (fun _ => k))
  (at level 61, right associativity) : py_scope.

(** ** The program *)

Module App.
Import Text Py.
Local Open Scope py_scope.

(** *** The guardrail of [generate_sql] (pure part) *)

Definition LIMIT_SUFFIX : pystr := lit " LIMIT 100;".

Definition NON_SELECT_HEADER : pystr :=
  lit "Model returned non-SELECT SQL:" ++ nl.

(** The two guardrail statements, on the text held by the variable [sql]:
    raise unless the SELECT pattern matches; append a limit unless the
    LIMIT pattern is found. *)
Definition guard (sql : pystr) : result pystr :=
  if negb (match_select sql) then
    inl (Exn ValueError (NON_SELECT_HEADER ++ sql))
  else
    inr (if negb (has_limit sql)
         then rstrip_chars (lit ";") (rstrip sql) ++ LIMIT_SUFFIX
         else sql).

(** The SQL Guardrail on the candidate text [output_text]: trim, then the
    two statements above. *)
Definition sql_guardrail (candidate : pystr) : result pystr :=
  guard (strip candidate).

(** *** Prompt texts *)

Definition PROMPT_HEAD : pystr := lit
"You translate a user question into a single MySQL SELECT query.

Rules:
- Output ONLY SQL (no prose, no backticks, no comments).
- Absolutely no DML/DDL (no INSERT/UPDATE/DELETE/ALTER/CREATE/DROP).
- Use explicit JOINs, short table aliases.
- Prefer safe defaults: if no limit is requested, add LIMIT 100.
- Use column and table names exactly as defined.

Here is the database DDL:
".

Definition PROMPT_MID : pystr := lit "

Question:
".

Definition PROMPT_TAIL : pystr := nl.

(** [PROMPT.format(schema=schema, question=question)] *)
Definition PROMPT_format (schema question : pystr) : pystr :=
  PROMPT_HEAD ++ schema ++ PROMPT_MID ++ question ++ PROMPT_TAIL.

Definition LIST_TABLES : pystr := lit
  "SELECT table_name FROM information_schema.tables WHERE table_schema = %s ORDER BY table_name".

Definition SHOW_CREATE (t : value) : pystr :=
  lit "SHOW CREATE TABLE `" ++ str_value t ++ lit "`".

Definition SQL_SYSTEM : pystr :=
  lit "You are a careful SQL generator for MySQL.".

Definition ANSWER_SYSTEM : pystr :=
  lit "You write short, clear answers for non-technical users.".

Definition PREVIEW_ROWS : nat := 50.

(** The f-string of [summarize]. *)
Definition answer_prompt (question dumped : pystr) : pystr :=
  lit "Question: " ++ question ++ nl ++ lit "Result JSON: " ++ dumped ++ nl
  ++ lit "Write a concise answer in plain English.".

Definition BANNER : pystr :=
  lit "Ask about campus_vending (type 'exit' to quit).".
Definition Q_PROMPT : pystr := nl ++ lit "Q> ".
Definition SQL_TAG : pystr := nl ++ lit "[SQL]" ++ nl.
Definition RESULT_TAG : pystr := nl ++ lit "[RESULT]".
Definition NO_ROWS_NOTICE : pystr := nl ++ lit "[RESULT] (no rows)".
Definition ANSWER_TAG : pystr := nl ++ lit "[ANSWER]" ++ nl.
Definition ERROR_TAG : pystr := nl ++ lit "[ERROR]" ++ nl.

(** *** Small pieces of Python *)

(** [r[0]] *)
Definition index0 (r : row) : result value :=
  match r with
  | v :: _ => inr v
  | [] => inl (Exn IndexError (lit "tuple index out of range"))
  end.

(** [[r[0] for r in fetched]] *)
Fixpoint first_cells (fetched : list row) : result (list value) :=
  match fetched with
  | [] => inr []
  | r :: rs =>
      match index0 r with
      | inl e => inl e
      | inr v =>
          match first_cells rs with
          | inl e => inl e
          | inr vs => inr (v :: vs)
          end
      end
  end.

(** [a, b = fetched] where [fetched] is what [fetchone] gave. *)
Definition unpack2 (fetched : option row) : result (value * value) :=
  match fetched with
  | None =>
      inl (Exn TypeError (lit "cannot unpack non-iterable NoneType object"))
  | Some [a; b] => inr (a, b)
  | Some (_ :: _ :: _ :: _) =>
      inl (Exn ValueError (lit "too many values to unpack (expected 2)"))
  | Some _ => inl (Exn ValueError (lit "not enough values to unpack"))
  end.

(** [v + text] for a [str] [text] *)
Definition add_str (v : value) (text : pystr) : result pystr :=
  match v with
  | VStr s => inr (s ++ text)
  | VNonStr _ => inl (Exn TypeError (lit "unsupported operand type(s) for +"))
  end.

(** [getattr(resp, "output_text", "")] *)
Definition getattr_output_text (resp : response) : pystr :=
  match output_text resp with Some t => t | None => [] end.

(** [q.lower() in {"exit", "quit"}] *)
Definition is_quit (q : pystr) : bool :=
  pystr_eqb (lower q) (lit "exit") || pystr_eqb (lower q) (lit "quit").

Section Program.
Context {World Conn Cursor : Type} {env : Environment World Conn Cursor}.
Variable DB_CFG : db_cfg.
Variable MODEL : pystr.

Local Abbreviation M := (M World).

Definition lift {A} (r : result A) : M A :=
  match r with inl e => raise e | inr a => ret a end.

(** The body of the [for t in tables] loop, iterated; [ddl_parts] is the
    list built so far. *)
Fixpoint show_tables (cur : Cursor) (tables : list value)
    (ddl_parts : list pystr) : M (list pystr) :=
  match tables with
  | [] => ret ddl_parts
  | t :: rest =>
      _ <- call (EvExecute (SHOW_CREATE t) [])
                (cur_execute cur (SHOW_CREATE t) []) ;;
      fetched <- call EvFetchone (cur_fetchone cur) ;;
      names <- lift (unpack2 fetched) ;;
      part <- lift (add_str (snd names) (lit ";")) ;;
      show_tables cur rest (ddl_parts ++ [part])
  end.

Definition get_schema_ddl : M pystr :=
  cn <- call (EvConnect DB_CFG) (mysql_connect DB_CFG) ;;
  try_finally
    (cur <- call EvCursor (cn_cursor cn) ;;
     _ <- call (EvExecute LIST_TABLES [cfg_database DB_CFG])
               (cur_execute cur LIST_TABLES [cfg_database DB_CFG]) ;;
     fetched <- call EvFetchall (cur_fetchall cur) ;;
     tables <- lift (first_cells fetched) ;;
     ddl_parts <- show_tables cur tables [] ;;
     ret (join (nl ++ nl) ddl_parts))
    (call EvClose (cn_close cn)).

Definition sql_messages (schema question : pystr) : list message :=
  [ Message (lit "system") SQL_SYSTEM;
    Message (lit "user") (PROMPT_format schema question) ].

Definition generate_sql (question : pystr) : M pystr :=
  schema <- get_schema_ddl ;;
  resp <- call (EvCreate MODEL (sql_messages schema question))
               (responses_create MODEL (sql_messages schema question)) ;;
  lift (sql_guardrail (getattr_output_text resp)).

(** [[d[0] for d in cur.description] if cur.description else []] *)
Definition column_names (description : option (list column_descriptor))
    : list pystr :=
  match description with
  | Some (d :: ds) => map d0 (d :: ds)
  | _ => []
  end.

Definition run_sql (sql : pystr) : M (list pystr * list row) :=
  cn <- call (EvConnect DB_CFG) (mysql_connect DB_CFG) ;;
  try_finally
    (cur <- call EvCursor (cn_cursor cn) ;;
     _ <- call (EvExecute sql []) (cur_execute cur sql []) ;;
     rows <- call EvFetchall (cur_fetchall cur) ;;
     description <- peek (cur_description cur) ;;
     ret (column_names description, rows))
    (call EvClose (cn_close cn)).

(** [{"columns": cols, "rows": rows[:50]}] *)
Definition make_preview (cols : list pystr) (rows : list row) : preview :=
  Preview cols (firstn PREVIEW_ROWS rows).

Definition answer_messages (question : pystr) (p : preview) : list message :=
  [ Message (lit "system") ANSWER_SYSTEM;
    Message (lit "user") (answer_prompt question (json_dumps p)) ].

Definition summarize (question : pystr) (cols : list pystr)
    (rows : list row) : M pystr :=
  let preview := make_preview cols rows in
  resp <- call (EvCreate MODEL (answer_messages question preview))
               (responses_create MODEL (answer_messages question preview)) ;;
  ret (strip (getattr_output_text resp)).

(** The [if cols: ... else: ...] of [main]. *)
Definition show_result (cols : list pystr) (rows : list row) : M unit :=
  match cols with
  | _ :: _ =>
      _ <- print [RESULT_TAG] ;;
      print [tabulate rows cols]
  | [] => print [NO_ROWS_NOTICE]
  end.

(** The body of the [try] in [main]. *)
Definition answer_question (q : pystr) : M unit :=
  sql <- generate_sql q ;;
  _ <- print [SQL_TAG; sql] ;;
  res <- run_sql sql ;;
  _ <- show_result (fst res) (snd res) ;;
  answer <- summarize q (fst res) (snd res) ;;
  print [ANSWER_TAG; answer].

(** The [except Exception as e] clause of [main]. *)
Definition report_error (e : exn) : M unit :=
  print [ERROR_TAG; str_exn e].

(** One turn of the [while True] loop after the line is read and is not a
    quit command. *)
Definition turn (q : pystr) : M unit :=
  try_except (answer_question q) report_error.

(** The [while True] loop of [main] over the lines still to come on
    standard input; [input] raises [EOFError] when there is none. *)
Fixpoint main_loop (stdin : list pystr) : M unit :=
  match stdin with
  | [] =>
      _ <- emit (EvInput Q_PROMPT) ;;
      raise (Exn EOFError (lit "EOF when reading a line"))
  | line :: rest =>
      _ <- emit (EvInput Q_PROMPT) ;;
      let q := strip line in
      if is_quit q then ret tt
      else (_ <- turn q ;; main_loop rest)
  end.

Definition main (stdin : list pystr) : M unit :=
  _ <- print [BANNER] ;;
  main_loop stdin.

End Program.

(** *** Reading a trace *)

(** The texts written by [print], in order. *)
Fixpoint prints (t : list event) : list (list pystr) :=
  match t with
  | [] => []
  | EvPrint args :: t' => args :: prints t'
  | _ :: t' => prints t'
  end.

(** The statements handed to [cursor.execute], in order. *)
Fixpoint executed (t : list event) : list pystr :=
  match t with
  | [] => []
  | EvExecute op _ :: t' => op :: executed t'
  | _ :: t' => executed t'
  end.

(** The events of the loop over the tables in [get_schema_ddl]. *)
Definition show_events (tables : list value) : list event :=
  flat_map (fun t => [EvExecute (SHOW_CREATE t) []; EvFetchone]) tables.

(** A [print] call is an error report when it has two arguments, the
    first of them the [ERROR] label. *)
Definition is_error_report (args : list pystr) : bool :=
  match args with
  | [tag; _] => pystr_eqb tag ERROR_TAG
  | _ => false
  end.

Definition error_reports (t : list event) : nat :=
  List.length (filter is_error_report (prints t)).

(** The state once one more event is recorded. *)
Definition logged {World} (ev : event) (s : state World) : state World :=
  State (world s) (trace s ++ [ev]).

(** *** Where a question can fail *)

Inductive stage :=
| SchemaFetch | Generation | Guardrail | Execution | Summarization.

Section Stages.
Context {World Conn Cursor : Type} {env : Environment World Conn Cursor}.
Variable DB_CFG : db_cfg.
Variable MODEL : pystr.

(** [failed_at q s e s' st]: the pipeline run on [q] from [s] raises [e]
    in stage [st], leaving the state [s']. *)
Inductive failed_at (q : pystr) (s : state World) (e : exn)
    (s' : state World) : stage -> Prop :=
| failed_schema :
    get_schema_ddl DB_CFG s = (inl e, s') ->
    failed_at q s e s' SchemaFetch
| failed_generation schema s1 :
    get_schema_ddl DB_CFG s = (inr schema, s1) ->
    call (EvCreate MODEL (sql_messages schema q))
         (responses_create MODEL (sql_messages schema q)) s1 = (inl e, s') ->
    failed_at q s e s' Generation
| failed_guardrail schema s1 resp :
    get_schema_ddl DB_CFG s = (inr schema, s1) ->
    call (EvCreate MODEL (sql_messages schema q))
         (responses_create MODEL (sql_messages schema q)) s1 = (inr resp, s') ->
    sql_guardrail (getattr_output_text resp) = inl e ->
    failed_at q s e s' Guardrail
| failed_execution sql s1 :
    generate_sql DB_CFG MODEL q s = (inr sql, s1) ->
    run_sql DB_CFG sql (logged (EvPrint [SQL_TAG; sql]) s1) = (inl e, s') ->
    failed_at q s e s' Execution
| failed_summarization sql s1 cols rows s2 :
    generate_sql DB_CFG MODEL q s = (inr sql, s1) ->
    run_sql DB_CFG sql (logged (EvPrint [SQL_TAG; sql]) s1)
      = (inr (cols, rows), s2) ->
    summarize MODEL q cols rows (snd (show_result cols rows s2)) = (inl e, s') ->
    failed_at q s e s' Summarization.

(** The database answers [SHOW CREATE TABLE] for each table of the list
    in turn with a two-cell row whose second cell is the text [stmt]. *)
Inductive shown_tables (cur : Cursor)
    : list value -> World -> list pystr -> World -> Prop :=
| shown_nil w : shown_tables cur [] w [] w
| shown_cons t ts w w1 name stmt w2 stmts w' :
    cur_execute cur (SHOW_CREATE t) [] w = (inr tt, w1) ->
    cur_fetchone cur w1 = (inr (Some [name; VStr stmt]), w2) ->
    shown_tables cur ts w2 stmts w' ->
    shown_tables cur (t :: ts) w (stmt :: stmts) w'.

(** What [show_result] prints. *)
Definition result_section (cols : list pystr) (rows : list row)
    : list (list pystr) :=
  match cols with
  | _ :: _ => [[RESULT_TAG]; [tabulate rows cols]]
  | [] => [[NO_ROWS_NOTICE]]
  end.

(** What a question that fails in stage [st] has printed before the
    failure, given the approved SQL and the result set where they
    exist. *)
Definition printed_before (st : stage) (sql : pystr) (cols : list pystr)
    (rows : list row) : list (list pystr) :=
  match st with
  | SchemaFetch | Generation | Guardrail => []
  | Execution => [[SQL_TAG; sql]]
  | Summarization => [SQL_TAG; sql] :: result_section cols rows
  end.

(** The approved SQL and the result set that a question failing in
    stage [st] has reached: the SQL from the execution on, the result set
    in the summarization. *)
Definition reached (st : stage) (q : pystr) (s : state World)
    (sql : pystr) (cols : list pystr) (rows : list row) : Prop :=
  match st with
  | SchemaFetch | Generation | Guardrail => True
  | Execution => exists s1, generate_sql DB_CFG MODEL q s = (inr sql, s1)
  | Summarization =>
      exists s1 s2,
        generate_sql DB_CFG MODEL q s = (inr sql, s1) /\
        run_sql DB_CFG sql (logged (EvPrint [SQL_TAG; sql]) s1)
          = (inr (cols, rows), s2)
  end.

(** A reading of "on failure, an [ERROR] section instead of the three
    others": whenever the pipeline fails on [q], all that the turn prints
    is the error report. *)
Definition error_is_sole_output (q : pystr) (s : state World) : Prop :=
  forall e s',
    answer_question DB_CFG MODEL q s = (inl e, s') ->
    is_Exception e = true ->
    prints (trace (snd (turn DB_CFG MODEL q s)))
    = prints (trace s) ++ [[ERROR_TAG; str_exn e]].

End Stages.

(** *** The schema snapshot in the words of the specification *)

(** One definition block: the statement and its delimiter. *)
Definition block (stmt : pystr) : pystr := stmt ++ lit ";".

(** The blocks, a blank line between consecutive ones. *)
Definition snapshot (stmts : list pystr) : pystr :=
  join (nl ++ nl) (map block stmts).

(** Python's order on [str]: code point by code point, a proper prefix
    first. *)
Fixpoint str_le (a b : pystr) : bool :=
  match a, b with
  | [], _ => true
  | _ :: _, [] => false
  | x :: a', y :: b' =>
      (code x <? code y) || ((code x =? code y) && str_le a' b')
  end.

Fixpoint in_name_order (names : list pystr) : bool :=
  match names with
  | [] => true
  | a :: rest =>
      match rest with
      | [] => true
      | b :: _ => str_le a b && in_name_order rest
      end
  end.

(** *** More readings of a trace *)

(** The number of requests made to the model service. *)
Fixpoint model_calls (t : list event) : nat :=
  match t with
  | [] => 0
  | EvCreate _ _ :: t' => S (model_calls t')
  | _ :: t' => model_calls t'
  end.

(** The number of [cn.close()] calls. *)
Fixpoint closes (t : list event) : nat :=
  match t with
  | [] => 0
  | EvClose :: t' => S (closes t')
  | _ :: t' => closes t'
  end.

(** The events that [get_schema_ddl] can record. *)
Inductive schema_event (DB_CFG : db_cfg) : event -> Prop :=
| schema_connect : schema_event DB_CFG (EvConnect DB_CFG)
| schema_cursor : schema_event DB_CFG EvCursor
| schema_list :
    schema_event DB_CFG (EvExecute LIST_TABLES [cfg_database DB_CFG])
| schema_fetchall : schema_event DB_CFG EvFetchall
| schema_show t : schema_event DB_CFG (EvExecute (SHOW_CREATE t) [])
| schema_fetchone : schema_event DB_CFG EvFetchone
| schema_close : schema_event DB_CFG EvClose.

(** The events that [run_sql] can record. *)
Inductive run_event (DB_CFG : db_cfg) (sql : pystr) : event -> Prop :=
| run_connect : run_event DB_CFG sql (EvConnect DB_CFG)
| run_cursor : run_event DB_CFG sql EvCursor
| run_execute : run_event DB_CFG sql (EvExecute sql [])
| run_fetchall : run_event DB_CFG sql EvFetchall
| run_close : run_event DB_CFG sql EvClose.

(** The two statements of the schema fetch. *)
Definition catalog_statement (op : pystr) : Prop :=
  op = LIST_TABLES \/ exists t, op = SHOW_CREATE t.

(** A text that the guardrail returned for some candidate. *)
Definition guarded (op : pystr) : Prop :=
  exists candidate, sql_guardrail candidate = inr op.

(** What [input] raises at the end of standard input. *)
Definition EOF_ERROR : exn := Exn EOFError (lit "EOF when reading a line").

End App.

(** ** A scripted outside world

    A database with a fixed catalog that answers every other statement
    with one canned result, and a model service that gives its replies in
    the order scripted.  The library functions are stand-ins that render
    cells through [str]. *)

Module Script.
Import Text Py App.

Record outside := Outside {
  catalog : list (pystr * pystr);      (* table name, CREATE TABLE text *)
  query_answer : result (option (list column_descriptor) * list row);
  replies : list (result response);    (* model answers still to come *)
  fetchable : list row;                (* rows the cursor still holds *)
  described : option (list column_descriptor)
}.

Definition with_cursor (w : outside) (d : option (list column_descriptor))
    (rs : list row) : outside :=
  Outside (catalog w) (query_answer w) (replies w) rs d.

Fixpoint lookup (name : pystr) (c : list (pystr * pystr)) : option pystr :=
  match c with
  | [] => None
  | (n, stmt) :: c' => if pystr_eqb n name then Some stmt else lookup name c'
  end.

Definition SHOW_PREFIX : pystr := lit "SHOW CREATE TABLE `".

(** The table named by a [SHOW CREATE TABLE] statement. *)
Definition show_target (op : pystr) : option pystr :=
  if starts_with SHOW_PREFIX op
  then Some (removelast (skipn (List.length SHOW_PREFIX) op))
  else None.

Definition execute (op : pystr) (w : outside) : result unit * outside :=
  if pystr_eqb op LIST_TABLES then
    (inr tt,
     with_cursor w (Some [ColumnDescriptor (lit "table_name") 253])
       (map (fun t => [VStr (fst t)]) (catalog w)))
  else
    match show_target op with
    | Some name =>
        match lookup name (catalog w) with
        | Some stmt =>
            (inr tt,
             with_cursor w
               (Some [ColumnDescriptor (lit "Table") 253;
                      ColumnDescriptor (lit "Create Table") 253])
               [[VStr name; VStr stmt]])
        | None =>
            (inl (Exn DatabaseError (lit "Table does not exist")), w)
        end
    | None =>
        match query_answer w with
        | inl e => (inl e, w)
        | inr (d, rs) => (inr tt, with_cursor w d rs)
        end
    end.

Definition fetchall (w : outside) : result (list row) * outside :=
  (inr (fetchable w), with_cursor w (described w) []).

Definition fetchone (w : outside) : result (option row) * outside :=
  match fetchable w with
  | [] => (inr None, w)
  | r :: rs => (inr (Some r), with_cursor w (described w) rs)
  end.

Definition create (w : outside) : result response * outside :=
  match replies w with
  | [] => (inl (Exn ModelServiceError (lit "Connection error.")), w)
  | r :: rs =>
      (r, Outside (catalog w) (query_answer w) rs (fetchable w) (described w))
  end.

Definition render_row (cells : list pystr) : pystr :=
  lit "| " ++ join (lit " | ") cells ++ lit " |".

Definition render_table (rs : list row) (headers : list pystr) : pystr :=
  join nl (render_row headers :: map (fun r => render_row (map str_value r)) rs).

Definition render_preview (p : preview) : pystr :=
  lit "{columns: [" ++ join (lit ", ") (columns p) ++ lit "], rows: ["
  ++ join (lit ", ")
       (map (fun r => lit "[" ++ join (lit ", ") (map str_value r) ++ lit "]")
            (rows p))
  ++ lit "]}".

#[export] Instance scripted : Environment outside unit unit := {
  mysql_connect := fun _ w => (inr tt, w);
  cn_cursor := fun _ w => (inr tt, w);
  cn_close := fun _ w => (inr tt, w);
  cur_execute := fun _ op _ w => execute op w;
  cur_fetchall := fun _ w => fetchall w;
  cur_fetchone := fun _ w => fetchone w;
  cur_description := fun _ w => described w;
  responses_create := fun _ _ w => create w;
  tabulate := render_table;
  json_dumps := render_preview
}.

Definition CFG : db_cfg :=
  DbCfg (lit "localhost") 3306 (lit "root") [] (lit "campus_vending").

Definition MODEL : pystr := lit "gpt-4o-mini".

Definition says (text : string) : result response :=
  inr (Response (Some (lit text))).

(** A vending database with two tables. *)
Definition VENDING : list (pystr * pystr) :=
  [ (lit "orders", lit "CREATE TABLE `orders` (`id` int)");
    (lit "products", lit "CREATE TABLE `products` (`id` int, `name` text)") ].

Definition start (answer : result (option (list column_descriptor) * list row))
    (rs : list (result response)) : state outside :=
  State (Outside VENDING answer rs [] None) [].

(** Run [main] on the given lines from [start]. *)
Definition session (answer : result (option (list column_descriptor) * list row))
    (rs : list (result response)) (stdin : list pystr)
    : result unit * state outside :=
  main CFG MODEL stdin (start answer rs).

(** A result set with one column and no row. *)
Definition NO_ROWS : result (option (list column_descriptor) * list row) :=
  inr (Some [ColumnDescriptor (lit "id") 3], []).

(** A result set with one column and two rows. *)
Definition TWO_ROWS : result (option (list column_descriptor) * list row) :=
  inr (Some [ColumnDescriptor (lit "id") 3],
       [[VNonStr (lit "1")]; [VNonStr (lit "2")]]).

(** A database that refuses the statement. *)
Definition REFUSED : result (option (list column_descriptor) * list row) :=
  inl (Exn DatabaseError (lit "1146 (42S02): Table 'campus_vending.order' doesn't exist")).

(** The snapshot of [VENDING]. *)
Definition SCHEMA : pystr := snapshot (map snd VENDING).

(** The state in which the schema fetch leaves [s]. *)
Definition fetched_schema (s : state outside) : state outside :=
  snd (get_schema_ddl CFG s).

(** The state in which the pipeline run on [q] leaves [s]. *)
Definition answered (q : pystr) (s : state outside) : state outside :=
  snd (answer_question CFG MODEL q s).

(** A user who interrupts the process while the statement runs. *)
Definition INTERRUPTED : result (option (list column_descriptor) * list row) :=
  inl (Exn KeyboardInterrupt []).

(** A start state over a database with no table. *)
Definition start_empty (rs : list (result response)) : state outside :=
  State (Outside [] NO_ROWS rs [] None) [].

End Script.

(** * Facts about text *)

Unset Implicit Arguments.

Section CharFacts.
Import Text.

(** Every [ascii] is one of the 256 code points, so a boolean property of
    characters is settled by evaluating it on all of them. *)
Lemma all_chars (P : ascii -> bool) :
  (forall b0 b1 b2 b3 b4 b5 b6 b7, P (Ascii b0 b1 b2 b3 b4 b5 b6 b7) = true) ->
  forall c, P c = true.
Proof. intros H [b0 b1 b2 b3 b4 b5 b6 b7]. apply H. Qed.

Ltac by_cases_on_char :=
  apply all_chars;
  intros [] [] [] [] [] [] [] []; vm_compute; reflexivity.

Lemma space_word_disjoint_b :
  forall c, negb (is_space c && is_word c) = true.
Proof. by_cases_on_char. Qed.

Lemma space_digit_disjoint_b :
  forall c, negb (is_space c && is_digit c) = true.
Proof. by_cases_on_char. Qed.

Lemma digit_is_word_b : forall c, implb (is_digit c) (is_word c) = true.
Proof. by_cases_on_char. Qed.

Lemma lower_keeps_word_b :
  forall c, Bool.eqb (is_word (lower_char c)) (is_word c) = true.
Proof. by_cases_on_char. Qed.

Lemma semicolon_only_b :
  forall c, implb (mem_char (lit ";") c) (negb (is_word c) && negb (is_space c)) = true.
Proof. by_cases_on_char. Qed.

Lemma space_not_word c : is_space c = true -> is_word c = false.
Proof.
  intros H. generalize (space_word_disjoint_b c). rewrite H. simpl.
  destruct (is_word c); [discriminate | reflexivity].
Qed.

Lemma space_not_digit c : is_space c = true -> is_digit c = false.
Proof.
  intros H. generalize (space_digit_disjoint_b c). rewrite H. simpl.
  destruct (is_digit c); [discriminate | reflexivity].
Qed.

Lemma digit_is_word c : is_digit c = true -> is_word c = true.
Proof. intros H. generalize (digit_is_word_b c). rewrite H. trivial. Qed.

Lemma word_not_space c : is_word c = true -> is_space c = false.
Proof.
  intros H. destruct (is_space c) eqn:E; [|reflexivity].
  rewrite (space_not_word c E) in H. discriminate.
Qed.

Lemma lower_keeps_word c : is_word (lower_char c) = is_word c.
Proof. apply Bool.eqb_prop, lower_keeps_word_b. Qed.

Lemma semicolon_not_word c : mem_char (lit ";") c = true -> is_word c = false.
Proof.
  intros H. generalize (semicolon_only_b c). rewrite H. simpl.
  destruct (is_word c); [discriminate | reflexivity].
Qed.

Lemma semicolon_not_space c : mem_char (lit ";") c = true -> is_space c = false.
Proof.
  intros H. generalize (semicolon_only_b c). rewrite H. simpl.
  destruct (is_word c), (is_space c); simpl; congruence.
Qed.

End CharFacts.

Section StripFacts.
Import Text.
Variable p : ascii -> bool.

Lemma drop_while_end_keep c s :
  p c = false -> drop_while_end p (c :: s) = c :: drop_while_end p s.
Proof.
  intros H. simpl. destruct (drop_while_end p s); [rewrite H|]; reflexivity.
Qed.

Lemma drop_while_end_all s :
  forallb p s = true -> drop_while_end p s = [].
Proof.
  induction s as [|c s IH]; simpl; [reflexivity|].
  intros H. apply andb_prop in H. destruct H as [Hc Hs].
  rewrite (IH Hs), Hc. reflexivity.
Qed.

(** What is dropped is a suffix, all of whose characters satisfy [p]. *)
Lemma drop_while_end_split s :
  exists ws, s = drop_while_end p s ++ ws /\ forallb p ws = true.
Proof.
  induction s as [|c s [ws [Hs Hws]]]; simpl.
  - exists []. split; reflexivity.
  - destruct (drop_while_end p s) as [|d r] eqn:E.
    + destruct (p c) eqn:Hc.
      * exists (c :: ws). simpl in *. rewrite Hc, Hws.
        split; [congruence | reflexivity].
      * exists ws. simpl in *. split; congruence.
    + exists ws. split; [|assumption]. simpl in Hs |- *. congruence.
Qed.

Lemma drop_while_end_app s ws :
  forallb p ws = true -> drop_while_end p (s ++ ws) = drop_while_end p s.
Proof.
  intros H. induction s as [|c s IH]; simpl.
  - apply drop_while_end_all, H.
  - rewrite IH. reflexivity.
Qed.

(** A text that ends with a character outside [p] loses nothing. *)
Lemma drop_while_end_fixed s c :
  p c = false -> drop_while_end p (s ++ [c]) = s ++ [c].
Proof.
  intros H. induction s as [|d s IH]; simpl.
  - rewrite H. reflexivity.
  - rewrite IH. destruct (s ++ [c]) eqn:E; [|reflexivity].
    destruct s; discriminate.
Qed.

(** What is kept is empty or ends with a character outside [p]. *)
Lemma drop_while_end_last s :
  drop_while_end p s = [] \/
  exists r c, drop_while_end p s = r ++ [c] /\ p c = false.
Proof.
  induction s as [|d s IH]; simpl; [left; reflexivity|].
  destruct (drop_while_end p s) as [|e r] eqn:E.
  - destruct (p d) eqn:Hd; [left; reflexivity|].
    right. exists [], d. split; [reflexivity | assumption].
  - right. destruct IH as [IH | [r' [c [Hr Hc]]]]; [discriminate|].
    exists (d :: r'), c. split; [|assumption]. simpl. congruence.
Qed.

Lemma drop_while_end_idem s :
  drop_while_end p (drop_while_end p s) = drop_while_end p s.
Proof.
  destruct (drop_while_end_last s) as [H | [r [c [H Hc]]]]; rewrite H.
  - reflexivity.
  - apply drop_while_end_fixed, Hc.
Qed.

Lemma drop_while_head s :
  drop_while p s = [] \/ exists c r, drop_while p s = c :: r /\ p c = false.
Proof.
  induction s as [|c s IH]; simpl; [left; reflexivity|].
  destruct (p c) eqn:Hc; [exact IH|].
  right. exists c, s. split; [reflexivity | assumption].
Qed.

Lemma drop_while_fixed c s : p c = false -> drop_while p (c :: s) = c :: s.
Proof. intros H. simpl. rewrite H. reflexivity. Qed.

Lemma drop_while_split s :
  exists ws, s = ws ++ drop_while p s /\ forallb p ws = true.
Proof.
  induction s as [|c s [ws [Hs Hws]]]; simpl.
  - exists []. split; reflexivity.
  - destruct (p c) eqn:Hc.
    + exists (c :: ws). simpl. rewrite Hc, Hws.
      split; [congruence | reflexivity].
    + exists []. split; reflexivity.
Qed.

End StripFacts.

Section StripTwice.
Import Text.

Lemma rstrip_idem s : rstrip (rstrip s) = rstrip s.
Proof. apply drop_while_end_idem. Qed.

(** [strip] leaves nothing for a second [strip] to remove. *)
Lemma strip_idem s : strip (strip s) = strip s.
Proof.
  unfold strip, lstrip, rstrip.
  destruct (drop_while_head is_space s) as [H | [c [r [H Hc]]]]; rewrite H.
  - reflexivity.
  - rewrite (drop_while_end_keep _ _ r Hc), (drop_while_fixed _ _ _ Hc).
    rewrite <- (drop_while_end_keep _ _ r Hc). apply drop_while_end_idem.
Qed.

Lemma rstrip_strip s : rstrip (strip s) = strip s.
Proof. apply rstrip_idem. Qed.

(** A text that starts and ends with non-space characters is its own
    [strip]. *)
Lemma strip_fixed c m d :
  is_space c = false -> is_space d = false ->
  strip (c :: m ++ [d]) = c :: m ++ [d].
Proof.
  intros Hc Hd. unfold strip, lstrip, rstrip.
  rewrite (drop_while_fixed _ _ _ Hc).
  change (c :: m ++ [d]) with ((c :: m) ++ [d]).
  apply drop_while_end_fixed, Hd.
Qed.

(** A stripped text is empty or starts with a non-space character. *)
Lemma strip_head s :
  strip s = [] \/ exists c r, strip s = c :: r /\ is_space c = false.
Proof.
  unfold strip, lstrip, rstrip.
  destruct (drop_while_head is_space s) as [H | [c [r [H Hc]]]]; rewrite H.
  - left. reflexivity.
  - right. exists c, (drop_while_end is_space r).
    split; [apply drop_while_end_keep|]; assumption.
Qed.

Lemma span_drop_while p s : snd (span p s) = drop_while p s.
Proof.
  induction s as [|c s IH]; simpl; [reflexivity|].
  destruct (p c); [|reflexivity].
  destruct (span p s). exact IH.
Qed.

Lemma span_stop p c s : p c = false -> span p (c :: s) = ([], c :: s).
Proof. intros H. simpl. rewrite H. reflexivity. Qed.

Lemma span_split p s : s = fst (span p s) ++ snd (span p s).
Proof.
  induction s as [|c s IH]; simpl; [reflexivity|].
  destruct (p c); [|reflexivity].
  destruct (span p s). simpl in *. congruence.
Qed.

Lemma span_all p s : forallb p (fst (span p s)) = true.
Proof.
  induction s as [|c s IH]; simpl; [reflexivity|].
  destruct (p c) eqn:E; [|reflexivity].
  destruct (span p s). simpl in *. rewrite E. exact IH.
Qed.

Lemma span_rest p s :
  snd (span p s) = [] \/ exists c r, snd (span p s) = c :: r /\ p c = false.
Proof. rewrite span_drop_while. apply drop_while_head. Qed.

(** Appending a character outside [p] changes only what follows the run. *)
Lemma span_snoc_out p s w :
  p w = false -> span p (s ++ [w]) = (fst (span p s), snd (span p s) ++ [w]).
Proof.
  intros H. induction s as [|c s IH]; simpl.
  - rewrite H. reflexivity.
  - destruct (p c); [|reflexivity].
    rewrite IH. destruct (span p s). reflexivity.
Qed.

(** Appending a character of [p] lengthens the run only when the run
    reaches the end. *)
Lemma span_snoc_in p s w :
  p w = true ->
  span p (s ++ [w]) =
    match snd (span p s) with
    | [] => (fst (span p s) ++ [w], [])
    | r => (fst (span p s), r ++ [w])
    end.
Proof.
  intros H. induction s as [|c s IH]; simpl.
  - rewrite H. reflexivity.
  - destruct (p c); [|reflexivity].
    rewrite IH. destruct (span p s) as [a [|b r]]; reflexivity.
Qed.

End StripTwice.

(** * Facts about the two patterns *)

Section PatternFacts.
Import Text.

Lemma match_literal_ic_sound pat :
  forall s kw rest,
    match_literal_ic pat s = Some (kw, rest) ->
    s = kw ++ rest /\ lower kw = pat.
Proof.
  induction pat as [|a pat IH]; intros s kw rest H.
  - destruct s; inversion H; subst; split; reflexivity.
  - destruct s as [|c s]; [discriminate|]. simpl in H.
    destruct (Ascii.eqb (lower_char c) a) eqn:E; [|discriminate].
    destruct (match_literal_ic pat s) as [[m r]|] eqn:F; [|discriminate].
    inversion H; subst. destruct (IH _ _ _ F) as [Hs Hl].
    apply Ascii.eqb_eq in E. simpl. split; congruence.
Qed.

Lemma match_literal_ic_complete kw rest :
  match_literal_ic (lower kw) (kw ++ rest) = Some (kw, rest).
Proof.
  induction kw as [|c kw IH]; simpl.
  - destruct rest; reflexivity.
  - rewrite Ascii.eqb_refl, IH. reflexivity.
Qed.

Lemma nonword_mismatch c a :
  is_word c = false -> is_word a = true -> Ascii.eqb (lower_char c) a = false.
Proof.
  intros Hc Ha. destruct (Ascii.eqb (lower_char c) a) eqn:E; [|reflexivity].
  apply Ascii.eqb_eq in E. subst a. rewrite lower_keeps_word in Ha. congruence.
Qed.

(** A keyword made of word characters never matches across an appended
    non-word character. *)
Lemma match_literal_ic_snoc pat w :
  forallb is_word pat = true -> is_word w = false ->
  forall u,
    match_literal_ic pat (u ++ [w]) =
    match match_literal_ic pat u with
    | Some (kw, rest) => Some (kw, rest ++ [w])
    | None => None
    end.
Proof.
  intros Hp Hw. induction pat as [|a pat IH]; intros u.
  - destruct u; reflexivity.
  - simpl in Hp. apply andb_prop in Hp. destruct Hp as [Ha Hp].
    destruct u as [|c u]; simpl.
    + rewrite (nonword_mismatch _ _ Hw Ha). reflexivity.
    + destruct (Ascii.eqb (lower_char c) a); [|reflexivity].
      rewrite (IH Hp u).
      destruct (match_literal_ic pat u) as [[m r]|]; reflexivity.
Qed.

Lemma boundary_before_nonword prev w rest :
  is_word w = false ->
  at_boundary prev (hd_error (rest ++ [w])) = at_boundary prev (hd_error rest).
Proof.
  intros Hw. destruct rest; simpl; [|reflexivity].
  unfold at_boundary. simpl. rewrite Hw. reflexivity.
Qed.

Lemma keyword_first_snoc pat u w :
  forallb is_word pat = true -> is_word w = false ->
  keyword_first pat (u ++ [w]) = keyword_first pat u.
Proof.
  intros Hp Hw. unfold keyword_first.
  rewrite (match_literal_ic_snoc _ _ Hp Hw).
  destruct (match_literal_ic pat u) as [[kw rest]|]; [|reflexivity].
  apply boundary_before_nonword, Hw.
Qed.

Lemma keyword_first_spaces pat ws :
  forallb is_word pat = true -> forallb is_space ws = true ->
  forall u, keyword_first pat (u ++ ws) = keyword_first pat u.
Proof.
  intros Hp. induction ws as [|w ws IH]; intros Hws u.
  - rewrite app_nil_r. reflexivity.
  - simpl in Hws. apply andb_prop in Hws. destruct Hws as [Hw Hws].
    change (u ++ w :: ws) with (u ++ [w] ++ ws). rewrite app_assoc.
    rewrite (IH Hws). apply keyword_first_snoc; [assumption|].
    apply space_not_word, Hw.
Qed.

Lemma match_select_lstrip s :
  match_select s = keyword_first (lit "select") (lstrip s).
Proof.
  unfold match_select, lstrip. rewrite <- span_drop_while.
  destruct (span is_space s). reflexivity.
Qed.

Lemma lstrip_strip s : lstrip (strip s) = strip s.
Proof.
  destruct (strip_head s) as [H | [c [r [H Hc]]]]; rewrite H.
  - reflexivity.
  - apply drop_while_fixed, Hc.
Qed.

(** The SELECT pattern does not tell a text from its [strip]. *)
Lemma match_select_strip s : match_select (strip s) = match_select s.
Proof.
  rewrite !match_select_lstrip, lstrip_strip. unfold strip, rstrip.
  destruct (drop_while_end_split is_space (lstrip s)) as [ws [Hs Hws]].
  rewrite Hs at 2. symmetry. apply keyword_first_spaces; [reflexivity | exact Hws].
Qed.

Lemma limit_at_prev p1 p2 s :
  word_opt p1 = word_opt p2 -> limit_at p1 s = limit_at p2 s.
Proof. intros H. unfold limit_at, at_boundary. rewrite H. reflexivity. Qed.

Lemma search_limit_prev p1 p2 s :
  word_opt p1 = word_opt p2 -> search_limit p1 s = search_limit p2 s.
Proof.
  intros H. destruct s; simpl; rewrite (limit_at_prev _ _ _ H); reflexivity.
Qed.

(** The LIMIT pattern does not start at a non-word character. *)
Lemma limit_at_nonword prev c s : is_word c = false -> limit_at prev (c :: s) = false.
Proof.
  intros Hc. unfold limit_at. simpl.
  rewrite (nonword_mismatch c "l"%char Hc eq_refl). apply andb_false_r.
Qed.

Lemma limit_at_nil prev : limit_at prev [] = false.
Proof. unfold limit_at. simpl. apply andb_false_r. Qed.

Lemma limit_at_snoc prev u w :
  is_space w = true -> limit_at prev (u ++ [w]) = limit_at prev u.
Proof.
  intros Hs. pose proof (space_not_word _ Hs) as Hw.
  pose proof (space_not_digit _ Hs) as Hd.
  unfold limit_at. rewrite (boundary_before_nonword _ _ _ Hw).
  rewrite (match_literal_ic_snoc (lit "limit") w eq_refl Hw).
  destruct (match_literal_ic (lit "limit") u) as [[kw r]|]; [|reflexivity].
  f_equal. rewrite (span_snoc_in is_space r w Hs).
  pose proof (span_rest is_space r) as Hr.
  destruct (span is_space r) as [sp r1]. simpl in *.
  destruct r1 as [|c r1].
  - simpl. destruct (sp ++ [w]), sp; reflexivity.
  - change (c :: r1 ++ [w]) with ((c :: r1) ++ [w]).
    rewrite (span_snoc_out is_digit (c :: r1) w Hd).
    destruct (span is_digit (c :: r1)) as [ds r2]. simpl fst. simpl snd.
    destruct sp; [reflexivity|]. destruct ds; [reflexivity|].
    apply boundary_before_nonword, Hw.
Qed.

Lemma search_limit_snoc w :
  is_space w = true ->
  forall u prev, search_limit prev (u ++ [w]) = search_limit prev u.
Proof.
  intros Hs. pose proof (space_not_word _ Hs) as Hw.
  induction u as [|c u IH]; intros prev.
  - simpl. rewrite (limit_at_nonword _ _ _ Hw), !limit_at_nil. reflexivity.
  - change ((c :: u) ++ [w]) with (c :: (u ++ [w])).
    change (search_limit prev (c :: u ++ [w]))
      with (limit_at prev (c :: u ++ [w]) || search_limit (Some c) (u ++ [w])).
    change (c :: u ++ [w]) with ((c :: u) ++ [w]).
    rewrite (limit_at_snoc _ _ _ Hs), IH. reflexivity.
Qed.

Lemma search_limit_spaces ws :
  forallb is_space ws = true ->
  forall u prev, search_limit prev (u ++ ws) = search_limit prev u.
Proof.
  induction ws as [|w ws IH]; intros Hws u prev.
  - rewrite app_nil_r. reflexivity.
  - simpl in Hws. apply andb_prop in Hws. destruct Hws as [Hw Hws].
    change (u ++ w :: ws) with (u ++ [w] ++ ws). rewrite app_assoc.
    rewrite (IH Hws). apply search_limit_snoc, Hw.
Qed.

Lemma search_limit_skip ws :
  forallb is_space ws = true ->
  forall u, search_limit None (ws ++ u) = search_limit None u.
Proof.
  induction ws as [|w ws IH]; intros Hws u; [reflexivity|].
  simpl in Hws. apply andb_prop in Hws. destruct Hws as [Hw Hws].
  pose proof (space_not_word _ Hw) as Hn.
  change ((w :: ws) ++ u) with (w :: (ws ++ u)).
  change (search_limit None (w :: ws ++ u))
    with (limit_at None (w :: ws ++ u) || search_limit (Some w) (ws ++ u)).
  rewrite (limit_at_nonword _ _ _ Hn). simpl orb.
  rewrite (search_limit_prev (Some w) None); [apply IH, Hws | exact Hn].
Qed.

(** The LIMIT pattern does not tell a text from its [strip]. *)
Lemma has_limit_strip s : has_limit (strip s) = has_limit s.
Proof.
  unfold has_limit, strip, rstrip, lstrip.
  destruct (drop_while_split is_space s) as [ws [Hs Hws]].
  destruct (drop_while_end_split is_space (drop_while is_space s))
    as [ws' [Hs' Hws']].
  rewrite Hs at 2. rewrite (search_limit_skip _ Hws).
  rewrite Hs' at 2. symmetry. apply search_limit_spaces, Hws'.
Qed.

End PatternFacts.

(** * The guardrail *)

Section GuardrailFacts.
Import Text Py App.

Lemma starts_with_app p s : starts_with p (p ++ s) = true.
Proof.
  induction p as [|a p IH]; simpl; [reflexivity|].
  rewrite Ascii.eqb_refl. exact IH.
Qed.

Lemma ends_with_app p s : ends_with p (s ++ p) = true.
Proof. unfold ends_with. rewrite rev_app_distr. apply starts_with_app. Qed.

Lemma drop_while_end_prefix p kw rest :
  forallb (fun c => negb (p c)) kw = true ->
  drop_while_end p (kw ++ rest) = kw ++ drop_while_end p rest.
Proof.
  induction kw as [|c kw IH]; intros H; [reflexivity|].
  simpl in H. apply andb_prop in H. destruct H as [Hc Hkw].
  apply negb_true_iff in Hc.
  change ((c :: kw) ++ rest) with (c :: (kw ++ rest)).
  rewrite (drop_while_end_keep _ _ _ Hc), (IH Hkw). reflexivity.
Qed.

(** The characters matched by a keyword of word characters are word
    characters. *)
Lemma keyword_chars kw pat :
  lower kw = pat -> forallb is_word pat = true -> forallb is_word kw = true.
Proof.
  intros <-. induction kw as [|c kw IH]; simpl; [reflexivity|].
  rewrite lower_keeps_word. intros H. apply andb_prop in H.
  destruct H as [Hc Hkw]. rewrite Hc. exact (IH Hkw).
Qed.

Lemma word_chars_kept kw :
  forallb is_word kw = true ->
  forallb (fun c => negb (mem_char (lit ";") c)) kw = true.
Proof.
  induction kw as [|c kw IH]; [reflexivity|].
  cbn [forallb]. intros H. apply andb_prop in H. destruct H as [Hc Hkw].
  rewrite (IH Hkw), andb_true_r. apply negb_true_iff.
  destruct (mem_char (lit ";") c) eqn:E; [|reflexivity].
  rewrite (semicolon_not_word _ E) in Hc. discriminate.
Qed.

Lemma last_opt_snoc s c : last_opt (s ++ [c]) = Some c.
Proof. unfold last_opt. rewrite rev_app_distr. reflexivity. Qed.

Lemma last_opt_word kw :
  kw <> [] -> forallb is_word kw = true -> word_opt (last_opt kw) = true.
Proof.
  intros Hne H. destruct (exists_last Hne) as [m [c Hm]]. subst kw.
  rewrite last_opt_snoc. rewrite forallb_app in H. apply andb_prop in H.
  simpl in H. destruct H as [_ H]. rewrite andb_true_r in H. exact H.
Qed.

(** The appended clause is itself found by the LIMIT pattern, whatever
    precedes it. *)
Lemma search_limit_suffix x :
  forall prev, search_limit prev (x ++ LIMIT_SUFFIX) = true.
Proof.
  induction x as [|c x IH]; intros prev.
  - change ([] ++ LIMIT_SUFFIX) with (" "%char :: lit "LIMIT 100;").
    change (search_limit prev (" "%char :: lit "LIMIT 100;"))
      with (limit_at prev (" "%char :: lit "LIMIT 100;")
            || search_limit (Some " "%char) (lit "LIMIT 100;")).
    rewrite (limit_at_nonword prev " "%char _ eq_refl). reflexivity.
  - change ((c :: x) ++ LIMIT_SUFFIX) with (c :: (x ++ LIMIT_SUFFIX)).
    change (search_limit prev (c :: x ++ LIMIT_SUFFIX))
      with (limit_at prev (c :: x ++ LIMIT_SUFFIX)
            || search_limit (Some c) (x ++ LIMIT_SUFFIX)).
    rewrite IH. apply orb_true_r.
Qed.

(** What a stripped text accepted by the SELECT pattern looks like. *)
Lemma select_shape t :
  lstrip t = t -> match_select t = true ->
  exists c kw rest,
    t = (c :: kw) ++ rest /\ lower (c :: kw) = lit "select" /\
    forallb is_word (c :: kw) = true /\
    word_opt (hd_error rest) = false.
Proof.
  intros Ht H. rewrite match_select_lstrip, Ht in H. unfold keyword_first in H.
  destruct (match_literal_ic (lit "select") t) as [[kw rest]|] eqn:E;
    [|discriminate].
  destruct (match_literal_ic_sound _ _ _ _ E) as [Hs Hl].
  pose proof (keyword_chars _ _ Hl eq_refl) as Hw.
  destruct kw as [|c kw]; [discriminate|].
  exists c, kw, rest. repeat split; try assumption.
  unfold at_boundary in H.
  rewrite (last_opt_word (c :: kw)) in H; [|discriminate | exact Hw].
  destruct (word_opt (hd_error rest)); [discriminate | reflexivity].
Qed.

(** The text built by the limit branch from an accepted stripped text is
    stripped, accepted, and carries a limit. *)
Lemma limited_is_stable t :
  lstrip t = t -> match_select t = true ->
  let r := rstrip_chars (lit ";") (rstrip t) ++ LIMIT_SUFFIX in
  strip r = r /\ match_select r = true /\ has_limit r = true.
Proof.
  intros Ht Hm r.
  destruct (select_shape t Ht Hm) as [c [kw [rest [Hs [Hl [Hw Hb]]]]]].
  (* the run of semicolons is taken from what follows the keyword *)
  assert (Hr : exists rest',
             r = (c :: kw) ++ rest' ++ LIMIT_SUFFIX /\
             word_opt (hd_error (rest' ++ LIMIT_SUFFIX)) = false).
  { destruct (drop_while_end_split is_space t) as [ws [Hsp Hws]].
    fold (rstrip t) in Hsp.
    assert (Hk : rstrip t = (c :: kw) ++ drop_while_end is_space rest).
    { unfold rstrip. rewrite Hs. apply drop_while_end_prefix.
      clear -Hw. induction (c :: kw) as [|d l IH]; [reflexivity|].
      simpl in *. apply andb_prop in Hw. destruct Hw as [Hd Hl].
      rewrite (word_not_space _ Hd), (IH Hl). reflexivity. }
    exists (drop_while_end (mem_char (lit ";")) (drop_while_end is_space rest)).
    split.
    - unfold r, rstrip_chars. rewrite Hk.
      rewrite (drop_while_end_prefix _ _ _ (word_chars_kept _ Hw)).
      rewrite <- app_assoc. reflexivity.
    - destruct (drop_while_end_split (mem_char (lit ";"))
                  (drop_while_end is_space rest)) as [semis [Hq _]].
      destruct (drop_while_end_split is_space rest) as [ws' [Hq' _]].
      destruct (drop_while_end (mem_char (lit ";")) (drop_while_end is_space rest))
        as [|d rest'] eqn:E; [reflexivity|].
      rewrite Hq in Hq'. rewrite Hq' in Hb. exact Hb. }
  destruct Hr as [rest' [Hr Hb']].
  assert (Hc : is_space c = false).
  { simpl in Hw. apply andb_prop in Hw. apply word_not_space, Hw. }
  repeat split.
  - rewrite Hr.
    replace ((c :: kw) ++ rest' ++ LIMIT_SUFFIX)
      with (c :: (kw ++ rest' ++ lit " LIMIT 100") ++ [";"%char]).
    + apply strip_fixed; [exact Hc | reflexivity].
    + change LIMIT_SUFFIX with (lit " LIMIT 100" ++ [";"%char]).
      rewrite <- !app_assoc. reflexivity.
  - rewrite match_select_lstrip, Hr.
    change (lstrip ((c :: kw) ++ rest' ++ LIMIT_SUFFIX))
      with (drop_while is_space (c :: (kw ++ rest' ++ LIMIT_SUFFIX))).
    rewrite (drop_while_fixed _ _ _ Hc).
    change (c :: kw ++ rest' ++ LIMIT_SUFFIX)
      with ((c :: kw) ++ rest' ++ LIMIT_SUFFIX).
    unfold keyword_first. rewrite <- Hl, match_literal_ic_complete.
    unfold at_boundary.
    rewrite (last_opt_word (c :: kw)); [|discriminate | exact Hw].
    rewrite Hb'. reflexivity.
  - unfold has_limit. rewrite Hr, app_assoc. apply search_limit_suffix.
Qed.

(** The two guardrail statements on the text held by [sql]: with no
    limit found, trailing whitespace and trailing semicolons go and the
    limit is appended; with one found, the text is returned as it is. *)
Lemma guard_limit_clause sql approved :
  guard sql = inr approved ->
  (has_limit sql = false ->
     approved = rstrip_chars (lit ";") (rstrip sql) ++ lit " LIMIT 100;") /\
  (has_limit sql = true -> approved = sql).
Proof.
  unfold guard. destruct (match_select sql); simpl; [|discriminate].
  intros H. inversion H; subst. split; intros ->; reflexivity.
Qed.

End GuardrailFacts.

(** * What the two patterns mean *)

Section PatternMeaning.
Import Text.

Lemma span_run p ws r :
  forallb p ws = true ->
  match r with [] => True | c :: _ => p c = false end ->
  span p (ws ++ r) = (ws, r).
Proof.
  intros Hws Hr. induction ws as [|w ws IH]; simpl.
  - destruct r as [|c r]; [reflexivity|]. simpl. rewrite Hr. reflexivity.
  - simpl in Hws. apply andb_prop in Hws. destruct Hws as [Hw Hws].
    rewrite Hw, (IH Hws). reflexivity.
Qed.

Lemma span_pair p s : span p s = (fst (span p s), snd (span p s)).
Proof. destruct (span p s); reflexivity. Qed.

Lemma last_opt_cons c l :
  last_opt (c :: l) = match last_opt l with Some d => Some d | None => Some c end.
Proof.
  destruct l as [|d l] using rev_ind; [reflexivity|].
  change (c :: l ++ [d]) with ((c :: l) ++ [d]). rewrite !last_opt_snoc.
  reflexivity.
Qed.

(** [match_select] decides the SELECT pattern. *)
Lemma select_pattern_iff s : match_select s = true <-> select_pattern s.
Proof.
  split.
  - unfold match_select. intros H.
    pose proof (span_split is_space s) as Hs.
    pose proof (span_all is_space s) as Hws.
    destruct (span is_space s) as [ws r]. simpl in Hs, Hws.
    unfold keyword_first in H.
    destruct (match_literal_ic (lit "select") r) as [[kw rest]|] eqn:E;
      [|discriminate].
    destruct (match_literal_ic_sound _ _ _ _ E) as [Hr Hl].
    exists ws, kw, rest. subst r. repeat split; assumption.
  - intros [ws [kw [rest [Hs [Hws [Hl Hb]]]]]]. subst s.
    pose proof (keyword_chars _ _ Hl eq_refl) as Hw.
    unfold match_select. rewrite (span_run is_space ws (kw ++ rest) Hws).
    + unfold keyword_first. rewrite <- Hl, match_literal_ic_complete. exact Hb.
    + destruct kw as [|c kw]; [discriminate|]. simpl in Hw |- *.
      apply andb_prop in Hw. apply word_not_space, Hw.
Qed.

(** The LIMIT pattern at one position. *)
Lemma limit_at_iff prev s :
  limit_at prev s = true <->
  exists kw sp ds post,
    s = kw ++ sp ++ ds ++ post /\
    at_boundary prev (hd_error kw) = true /\
    lower kw = lit "limit" /\
    sp <> [] /\ forallb is_space sp = true /\
    ds <> [] /\ forallb is_digit ds = true /\
    at_boundary (last_opt ds) (hd_error post) = true.
Proof.
  split.
  - unfold limit_at. intros H. apply andb_prop in H. destruct H as [Hb H].
    destruct (match_literal_ic (lit "limit") s) as [[kw r]|] eqn:E;
      [|discriminate].
    destruct (match_literal_ic_sound _ _ _ _ E) as [Hs Hl].
    pose proof (span_split is_space r) as Hr.
    pose proof (span_all is_space r) as Hsp.
    destruct (span is_space r) as [sp r1]. simpl in Hr, Hsp.
    pose proof (span_split is_digit r1) as Hr1.
    pose proof (span_all is_digit r1) as Hds.
    destruct (span is_digit r1) as [ds r2]. simpl in Hr1, Hds.
    destruct sp as [|c sp]; [discriminate|].
    destruct ds as [|d ds]; [discriminate|].
    exists kw, (c :: sp), (d :: ds), r2. subst s r r1.
    destruct kw as [|k kw]; [discriminate|].
    repeat split; try assumption; discriminate.
  - intros [kw [sp [ds [post [Hs [Hb [Hl [Hsp0 [Hsp [Hds0 [Hds He]]]]]]]]]]].
    subst s. unfold limit_at.
    destruct kw as [|k kw]; [discriminate|].
    change (hd_error ((k :: kw) ++ sp ++ ds ++ post)) with (hd_error (k :: kw)).
    rewrite Hb. rewrite <- Hl, match_literal_ic_complete.
    cbn [andb].
    destruct ds as [|d ds]; [congruence|].
    destruct sp as [|c sp]; [congruence|].
    rewrite (span_run is_space (c :: sp) ((d :: ds) ++ post) Hsp).
    + rewrite (span_run is_digit (d :: ds) post Hds); [exact He|].
      destruct post as [|x post]; [exact I|].
      unfold at_boundary in He.
      rewrite (last_opt_word (d :: ds)) in He; [|discriminate|].
      * simpl in He. destruct (is_word x) eqn:Hx; [discriminate|].
        destruct (is_digit x) eqn:Hd; [|reflexivity].
        rewrite (digit_is_word _ Hd) in Hx. discriminate.
      * clear -Hds. induction (d :: ds) as [|y l IH]; [reflexivity|].
        simpl in *. apply andb_prop in Hds. destruct Hds as [Hy Hl].
        rewrite (digit_is_word _ Hy), (IH Hl). reflexivity.
    + simpl in Hds |- *. apply andb_prop in Hds. destruct Hds as [Hd _].
      destruct (is_space d) eqn:Hsd; [|reflexivity].
      rewrite (space_not_digit _ Hsd) in Hd. discriminate.
Qed.

Lemma search_limit_iff s : forall prev,
  search_limit prev s = true <->
  exists pre x,
    s = pre ++ x /\
    limit_at (match last_opt pre with Some c => Some c | None => prev end) x
      = true.
Proof.
  induction s as [|c s IH]; intros prev.
  - simpl. rewrite limit_at_nil. simpl. split; [discriminate|].
    intros [pre [x [Hs H]]]. symmetry in Hs. apply app_eq_nil in Hs.
    destruct Hs as [_ ->]. rewrite limit_at_nil in H. discriminate.
  - change (search_limit prev (c :: s))
      with (limit_at prev (c :: s) || search_limit (Some c) s).
    rewrite orb_true_iff, IH. split.
    + intros [H | [pre [x [Hs H]]]].
      * exists [], (c :: s). split; [reflexivity | exact H].
      * exists (c :: pre), x. subst s. split; [reflexivity|].
        rewrite last_opt_cons. destruct (last_opt pre); exact H.
    + intros [pre [x [Hs H]]]. destruct pre as [|d pre].
      * left. simpl in Hs. subst x. exact H.
      * right. simpl in Hs. inversion Hs; subst. exists pre, x.
        split; [reflexivity|]. rewrite last_opt_cons in H.
        destruct (last_opt pre); exact H.
Qed.

(** [has_limit] decides the LIMIT pattern. *)
Lemma limit_pattern_iff s : has_limit s = true <-> limit_pattern s.
Proof.
  unfold has_limit, limit_pattern. rewrite search_limit_iff. split.
  - intros [pre [x [Hs H]]]. apply limit_at_iff in H.
    destruct H as [kw [sp [ds [post [Hx [Hb H]]]]]].
    exists pre, kw, sp, ds, post. subst. split; [reflexivity|].
    split; [|exact H]. destruct (last_opt pre); exact Hb.
  - intros [pre [kw [sp [ds [post [Hs [Hb H]]]]]]].
    exists pre, (kw ++ sp ++ ds ++ post). split; [exact Hs|].
    apply limit_at_iff. exists kw, sp, ds, post.
    split; [reflexivity|]. split; [|exact H].
    destruct (last_opt pre); exact Hb.
Qed.

(** On a trimmed text the SELECT pattern is the keyword at the very
    start. *)
Lemma match_select_trimmed s :
  match_select (strip s) = keyword_first (lit "select") (strip s).
Proof. rewrite match_select_lstrip, lstrip_strip. reflexivity. Qed.

End PatternMeaning.

(** * Facts about the effect monad *)

Section MonadFacts.
Import Text Py.
Context {World : Type}.
Local Open Scope py_scope.

Lemma bind_ok {A B} (m : M World A) (k : A -> M World B) s a s1 :
  m s = (inr a, s1) -> bind m k s = k a s1.
Proof. intros H. unfold bind. rewrite H. reflexivity. Qed.

Lemma bind_err {A B} (m : M World A) (k : A -> M World B) s e s1 :
  m s = (inl e, s1) -> bind m k s = (inl e, s1).
Proof. intros H. unfold bind. rewrite H. reflexivity. Qed.

(** A sequence raises when its first part raises, or when the first part
    returns and the rest raises. *)
Lemma bind_raises {A B} (m : M World A) (k : A -> M World B) s e s' :
  bind m k s = (inl e, s') ->
  m s = (inl e, s') \/ exists a s1, m s = (inr a, s1) /\ k a s1 = (inl e, s').
Proof.
  unfold bind. destruct (m s) as [[e0 | a] s1]; intros H.
  - left. inversion H; subst. reflexivity.
  - right. exists a, s1. split; [reflexivity | exact H].
Qed.

Lemma bind_returns {A B} (m : M World A) (k : A -> M World B) s b s' :
  bind m k s = (inr b, s') ->
  exists a s1, m s = (inr a, s1) /\ k a s1 = (inr b, s').
Proof.
  unfold bind. destruct (m s) as [[e0 | a] s1]; intros H; [discriminate|].
  exists a, s1. split; [reflexivity | exact H].
Qed.

Lemma print_run args (s : state World) :
  print args s = (inr tt, State (world s) (trace s ++ [EvPrint args])).
Proof. reflexivity. Qed.

Lemma call_run {A} ev (h : World -> result A * World) (s : state World) :
  call ev h s = (fst (h (world s)), State (snd (h (world s))) (trace s ++ [ev])).
Proof. unfold call. destruct (h (world s)). reflexivity. Qed.

Section Appends.
Variable P : list event -> Prop.
Hypothesis P_nil : P [].
Hypothesis P_app : forall d1 d2, P d1 -> P d2 -> P (d1 ++ d2).

Lemma appends_ret {A} (a : A) : appends (World := World) P (ret a).
Proof. intros s. exists []. rewrite app_nil_r. split; [reflexivity | exact P_nil]. Qed.

Lemma appends_raise {A} e : appends (World := World) (A := A) P (raise e).
Proof. intros s. exists []. rewrite app_nil_r. split; [reflexivity | exact P_nil]. Qed.

Lemma appends_peek {A} (f : World -> A) : appends P (peek f).
Proof. intros s. exists []. rewrite app_nil_r. split; [reflexivity | exact P_nil]. Qed.

Lemma appends_emit ev : P [ev] -> appends (World := World) P (emit ev).
Proof. intros H s. exists [ev]. split; [reflexivity | exact H]. Qed.

Lemma appends_call {A} ev (h : World -> result A * World) :
  P [ev] -> appends P (call ev h).
Proof.
  intros H s. exists [ev]. rewrite call_run. split; [reflexivity | exact H].
Qed.

Lemma appends_bind {A B} (m : M World A) (k : A -> M World B) :
  appends P m -> (forall a, appends P (k a)) -> appends P (bind m k).
Proof.
  intros Hm Hk s. destruct (Hm s) as [d1 [E1 P1]]. unfold bind.
  destruct (m s) as [[e | a] s1]; simpl in E1.
  - exists d1. split; assumption.
  - destruct (Hk a s1) as [d2 [E2 P2]]. exists (d1 ++ d2).
    rewrite E2, E1, app_assoc. split; [reflexivity | apply P_app; assumption].
Qed.

Lemma appends_try_finally {A} (body : M World A) (fin : M World unit) :
  appends P body -> appends P fin -> appends P (try_finally body fin).
Proof.
  intros Hb Hf s. destruct (Hb s) as [d1 [E1 P1]]. unfold try_finally.
  destruct (body s) as [r s1]; simpl in E1.
  destruct (Hf s1) as [d2 [E2 P2]].
  destruct (fin s1) as [[e | u] s2]; simpl in E2; exists (d1 ++ d2);
    simpl; rewrite E2, E1, app_assoc;
    (split; [reflexivity | apply P_app; assumption]).
Qed.

Lemma appends_try_except {A} (body : M World A) (handler : exn -> M World A) :
  appends P body -> (forall e, appends P (handler e)) ->
  appends P (try_except body handler).
Proof.
  intros Hb Hh s. destruct (Hb s) as [d1 [E1 P1]]. unfold try_except.
  destruct (body s) as [[e | a] s1]; simpl in E1.
  - destruct (is_Exception e).
    + destruct (Hh e s1) as [d2 [E2 P2]]. exists (d1 ++ d2).
      rewrite E2, E1, app_assoc. split; [reflexivity | apply P_app; assumption].
    + exists d1. split; assumption.
  - exists d1. split; assumption.
Qed.

End Appends.

Lemma appends_weaken {A} (P Q : list event -> Prop) (m : M World A) :
  (forall d, P d -> Q d) -> appends P m -> appends Q m.
Proof.
  intros H Hm s. destruct (Hm s) as [d [E Pd]]. exists d.
  split; [exact E | exact (H d Pd)].
Qed.

End MonadFacts.

(** * Facts about the program *)

Section TraceFacts.
Import Text Py App.

Lemma prints_app a b : prints (a ++ b) = prints a ++ prints b.
Proof.
  induction a as [|ev a IH]; simpl; [reflexivity|].
  destruct ev; simpl; rewrite IH; reflexivity.
Qed.

Lemma executed_app a b : executed (a ++ b) = executed a ++ executed b.
Proof.
  induction a as [|ev a IH]; simpl; [reflexivity|].
  destruct ev; simpl; rewrite IH; reflexivity.
Qed.

Lemma no_prints_app d1 d2 :
  prints d1 = [] -> prints d2 = [] -> prints (d1 ++ d2) = [].
Proof. intros H1 H2. rewrite prints_app, H1, H2. reflexivity. Qed.

End TraceFacts.

Section ProgramFacts.
Import Text Py App.
Context {World Conn Cursor : Type} {env : Environment World Conn Cursor}.
Variable DB_CFG : db_cfg.
Variable MODEL : pystr.
Local Open Scope py_scope.

(** A computation is quiet when it prints nothing. *)
Local Abbreviation quiet := (appends (fun d => prints d = [])).

Ltac quiet_step :=
  first
    [ apply appends_ret; reflexivity
    | apply appends_raise; reflexivity
    | apply appends_peek; reflexivity
    | apply appends_call; reflexivity
    | apply appends_bind; [exact no_prints_app | | intros ?]
    | apply appends_try_finally; [exact no_prints_app | | ] ].

Lemma quiet_lift {A} (r : result A) : quiet (lift (World := World) r).
Proof. destruct r; simpl; quiet_step. Qed.

Lemma quiet_show_tables cur tables :
  forall parts, quiet (show_tables cur tables parts).
Proof.
  induction tables as [|t tables IH]; intros parts; cbn [show_tables].
  - quiet_step.
  - repeat (first [apply quiet_lift | apply IH | quiet_step]).
Qed.

Lemma quiet_get_schema_ddl : quiet (get_schema_ddl DB_CFG).
Proof.
  unfold get_schema_ddl.
  repeat (first [apply quiet_lift | apply quiet_show_tables | quiet_step]).
Qed.

Lemma quiet_generate_sql q : quiet (generate_sql DB_CFG MODEL q).
Proof.
  unfold generate_sql.
  repeat (first [apply quiet_lift | apply quiet_get_schema_ddl | quiet_step]).
Qed.

Lemma quiet_run_sql sql : quiet (run_sql DB_CFG sql).
Proof. unfold run_sql. repeat quiet_step. Qed.

Lemma quiet_summarize q cols rows : quiet (summarize MODEL q cols rows).
Proof. unfold summarize. repeat quiet_step. Qed.

(** A quiet computation leaves the printed texts as they were. *)
Lemma quiet_prints {A} (m : M World A) s :
  quiet m -> prints (trace (snd (m s))) = prints (trace s).
Proof.
  intros H. destruct (H s) as [d [E Hd]].
  rewrite E, prints_app, Hd, app_nil_r. reflexivity.
Qed.

Lemma quiet_prints_of {A} (m : M World A) s r s' :
  quiet m -> m s = (r, s') -> prints (trace s') = prints (trace s).
Proof. intros H E. rewrite <- (quiet_prints m s H), E. reflexivity. Qed.

End ProgramFacts.

(** * The guardrail: limit clause and idempotence *)

Section GuardrailProperties.
Import Text Py App.

(** C2. For every candidate the guardrail approves: when the candidate
    holds no [LIMIT <digits>] token (the pattern [\blimit\s+\d+\b],
    case ignored, is found nowhere in it), the approved text is the
    trimmed candidate with trailing whitespace and trailing semicolons
    stripped and [ LIMIT 100;] appended, so it ends with [LIMIT 100;];
    when the candidate holds such a token, the approved text is the
    candidate with nothing changed but the surrounding whitespace
    trimmed. *)
Theorem guardrail_limit_clause candidate approved :
  sql_guardrail candidate = inr approved ->
  if has_limit candidate
  then approved = strip candidate
  else approved
         = rstrip_chars (lit ";") (rstrip (strip candidate)) ++ lit " LIMIT 100;"
       /\ ends_with (lit "LIMIT 100;") approved = true.
Proof.
  unfold sql_guardrail. intros H.
  destruct (guard_limit_clause _ _ H) as [Hno Hyes].
  rewrite <- (has_limit_strip candidate).
  destruct (has_limit (strip candidate)).
  - apply Hyes. reflexivity.
  - split; [apply Hno; reflexivity|].
    rewrite (Hno eq_refl).
    change (lit " LIMIT 100;") with ([" "%char] ++ lit "LIMIT 100;").
    rewrite app_assoc. apply ends_with_app.
Qed.

(** C3. The guardrail is idempotent: run again on a text it approved, it
    approves that text and returns it unchanged. *)
Theorem guardrail_idempotent candidate approved :
  sql_guardrail candidate = inr approved ->
  sql_guardrail approved = inr approved.
Proof.
  unfold sql_guardrail, guard.
  destruct (match_select (strip candidate)) eqn:Hm; cbn [negb];
    [|discriminate].
  destruct (has_limit (strip candidate)) eqn:Hl; cbn [negb]; intros H;
    injection H as <-.
  - rewrite strip_idem, Hm, Hl. reflexivity.
  - destruct (limited_is_stable (strip candidate) (lstrip_strip _) Hm)
      as [Hs [Hm' Hl']].
    change [";"%char] with (lit ";"). fold LIMIT_SUFFIX.
    rewrite Hs, Hm', Hl'. reflexivity.
Qed.

End GuardrailProperties.

Lemma guardrail_limit_clause_witness :
  (App.sql_guardrail (Text.lit "SELECT * FROM products")
     = inr (Text.lit "SELECT * FROM products LIMIT 100;") /\
   Text.has_limit (Text.lit "SELECT * FROM products") = false /\
   Text.ends_with (Text.lit "LIMIT 100;")
     (Text.lit "SELECT * FROM products LIMIT 100;") = true) /\
  (App.sql_guardrail (Text.lit " select id from orders limit 5")
     = inr (Text.lit "select id from orders limit 5") /\
   Text.has_limit (Text.lit " select id from orders limit 5") = true /\
   Text.lit "select id from orders limit 5"
     = Text.strip (Text.lit " select id from orders limit 5")).
Proof.
  split.
  - split; [reflexivity|]. split; [reflexivity|].
    exact (proj2 (guardrail_limit_clause
                    (Text.lit "SELECT * FROM products")
                    (Text.lit "SELECT * FROM products LIMIT 100;") eq_refl)).
  - split; [reflexivity|]. split; [reflexivity|].
    exact (guardrail_limit_clause
             (Text.lit " select id from orders limit 5")
             (Text.lit "select id from orders limit 5") eq_refl).
Defined.

Lemma guardrail_idempotent_witness :
  App.sql_guardrail (Text.lit "  SELECT name FROM products ; ")
    = inr (Text.lit "SELECT name FROM products  LIMIT 100;") /\
  App.sql_guardrail (Text.lit "SELECT name FROM products  LIMIT 100;")
    = inr (Text.lit "SELECT name FROM products  LIMIT 100;").
Proof.
  split; [reflexivity|].
  exact (guardrail_idempotent (Text.lit "  SELECT name FROM products ; ")
           (Text.lit "SELECT name FROM products  LIMIT 100;") eq_refl).
Defined.

Section LoopFacts.
Import Text Py App.
Context {World Conn Cursor : Type} {env : Environment World Conn Cursor}.
Variable DB_CFG : db_cfg.
Variable MODEL : pystr.
Local Open Scope py_scope.

Local Abbreviation quiet := (appends (fun d => prints d = [])).
Local Abbreviation unreported := (appends (fun d => error_reports d = 0)).
Local Abbreviation grows := (appends (fun _ => True)).

Lemma error_reports_app a b :
  error_reports (a ++ b) = error_reports a + error_reports b.
Proof.
  unfold error_reports. rewrite prints_app, filter_app, length_app. reflexivity.
Qed.

Lemma unreported_app d1 d2 :
  error_reports d1 = 0 -> error_reports d2 = 0 -> error_reports (d1 ++ d2) = 0.
Proof. intros H1 H2. rewrite error_reports_app, H1, H2. reflexivity. Qed.

Lemma quiet_unreported {A} (m : M World A) : quiet m -> unreported m.
Proof.
  apply appends_weaken. intros d H. unfold error_reports. rewrite H. reflexivity.
Qed.

Lemma unreported_show_result cols rows : unreported (show_result cols rows).
Proof.
  destruct cols as [|c cols]; cbn [show_result].
  - apply appends_emit. reflexivity.
  - apply appends_bind; [exact unreported_app | | intros _];
      apply appends_emit; reflexivity.
Qed.

(** Nothing that [answer_question] prints is an error report. *)
Lemma unreported_answer_question q :
  unreported (answer_question DB_CFG MODEL q).
Proof.
  unfold answer_question.
  apply appends_bind; [exact unreported_app | | intros sql].
  { apply quiet_unreported, quiet_generate_sql. }
  apply appends_bind; [exact unreported_app | | intros _].
  { apply appends_emit. reflexivity. }
  apply appends_bind; [exact unreported_app | | intros res].
  { apply quiet_unreported, quiet_run_sql. }
  apply appends_bind; [exact unreported_app | | intros _].
  { apply unreported_show_result. }
  apply appends_bind; [exact unreported_app | | intros answer].
  { apply quiet_unreported, quiet_summarize. }
  apply appends_emit. reflexivity.
Qed.

Lemma grows_turn q : grows (turn DB_CFG MODEL q).
Proof.
  unfold turn. apply appends_try_except; [trivial | | intros e].
  - apply (appends_weaken (fun d => error_reports d = 0)); [trivial|].
    apply unreported_answer_question.
  - apply appends_emit. trivial.
Qed.

Lemma grows_main_loop stdin : grows (main_loop DB_CFG MODEL stdin).
Proof.
  induction stdin as [|line rest IH]; cbn [main_loop].
  - apply appends_bind; [trivial | apply appends_emit; trivial | intros _].
    apply appends_raise. trivial.
  - apply appends_bind; [trivial | apply appends_emit; trivial | intros _].
    destruct (is_quit (strip line)).
    + apply appends_ret. trivial.
    + apply appends_bind; [trivial | apply grows_turn | intros _; exact IH].
Qed.

(** Every pass through the loop starts by asking for a line. *)
Lemma main_loop_reads stdin s :
  exists tail,
    trace (snd (main_loop DB_CFG MODEL stdin s)) = trace s ++ EvInput Q_PROMPT :: tail.
Proof.
  destruct stdin as [|line rest]; cbn [main_loop]; unfold bind at 1; simpl.
  - exists []. reflexivity.
  - destruct (is_quit (strip line)).
    + exists []. reflexivity.
    + match goal with
      | |- context [snd (?m ?st)] =>
          assert (G : grows m);
          [ apply appends_bind; [trivial | apply grows_turn | intros _; apply grows_main_loop]
          | destruct (G st) as [d [E _]]; exists d; rewrite E; simpl;
            rewrite <- app_assoc; reflexivity ]
      end.
Qed.

(** A quit command ends the loop before any pipeline step. *)
Lemma quit_line_ends_loop line rest (s : state World) :
  is_quit (strip line) = true ->
  main_loop DB_CFG MODEL (line :: rest) s = (inr tt, logged (EvInput Q_PROMPT) s).
Proof.
  intros H. cbn [main_loop]. unfold bind, emit. rewrite H. reflexivity.
Qed.

Local Abbreviation opens ev m :=
  (forall s, exists tail, trace (snd (m s)) = trace s ++ ev :: tail).

Lemma opens_bind_call {A B} P ev (h : World -> result A * World)
    (k : A -> M World B) :
  (forall a, appends P (k a)) -> opens ev (bind (call ev h) k).
Proof.
  intros Hk s. unfold bind. rewrite call_run.
  destruct (h (world s)) as [[e | a] w]; simpl.
  - exists []. reflexivity.
  - destruct (Hk a (State w (trace s ++ [ev]))) as [d [E _]].
    exists d. rewrite E. simpl. rewrite <- app_assoc. reflexivity.
Qed.

Lemma opens_bind {A B} P ev (m : M World A) (k : A -> M World B) :
  opens ev m -> (forall a, appends P (k a)) -> opens ev (bind m k).
Proof.
  intros Hm Hk s. destruct (Hm s) as [t E]. unfold bind.
  destruct (m s) as [[e | a] s1]; simpl in E.
  - exists t. exact E.
  - destruct (Hk a s1) as [d [E2 _]]. exists (t ++ d).
    rewrite E2, E, <- app_assoc. reflexivity.
Qed.

Lemma opens_try_except {A} P ev (m : M World A) h :
  opens ev m -> (forall e, appends P (h e)) -> opens ev (try_except m h).
Proof.
  intros Hm Hh s. destruct (Hm s) as [t E]. unfold try_except.
  destruct (m s) as [[e | a] s1]; simpl in E.
  - destruct (is_Exception e).
    + destruct (Hh e s1) as [d [E2 _]]. exists (t ++ d).
      rewrite E2, E, <- app_assoc. reflexivity.
    + exists t. exact E.
  - exists t. exact E.
Qed.

(** The pipeline starts by connecting to the database. *)
Lemma get_schema_ddl_connects : opens (EvConnect DB_CFG) (get_schema_ddl DB_CFG).
Proof.
  unfold get_schema_ddl. apply (opens_bind_call (fun d => prints d = [])).
  intros cn.
  repeat (first [ apply quiet_lift | apply quiet_show_tables
                | apply appends_ret; reflexivity
                | apply appends_call; reflexivity
                | apply appends_bind; [exact no_prints_app | | intros ?]
                | apply appends_try_finally; [exact no_prints_app | | ] ]).
Qed.

Lemma answer_question_connects q :
  opens (EvConnect DB_CFG) (answer_question DB_CFG MODEL q).
Proof.
  unfold answer_question.
  apply (opens_bind (fun d => error_reports d = 0)).
  - unfold generate_sql. apply (opens_bind (fun d => prints d = [])).
    + apply get_schema_ddl_connects.
    + intros schema. apply appends_bind; [exact no_prints_app | | intros resp].
      * apply appends_call. reflexivity.
      * apply quiet_lift.
  - intros sql.
    apply appends_bind; [exact unreported_app | | intros _].
    { apply appends_emit. reflexivity. }
    apply appends_bind; [exact unreported_app | | intros res].
    { apply quiet_unreported, quiet_run_sql. }
    apply appends_bind; [exact unreported_app | | intros _].
    { apply unreported_show_result. }
    apply appends_bind; [exact unreported_app | | intros answer].
    { apply quiet_unreported, quiet_summarize. }
    apply appends_emit. reflexivity.
Qed.

Lemma turn_connects q : opens (EvConnect DB_CFG) (turn DB_CFG MODEL q).
Proof.
  unfold turn. apply (opens_try_except (fun _ => True)).
  - apply answer_question_connects.
  - intros e. apply appends_emit. trivial.
Qed.

End LoopFacts.

Section FailureFacts.
Import Text Py App.
Context {World Conn Cursor : Type} {env : Environment World Conn Cursor}.
Variable DB_CFG : db_cfg.
Variable MODEL : pystr.
Local Open Scope py_scope.

Lemma show_result_run cols rows (s : state World) :
  show_result cols rows s = (inr tt, snd (show_result cols rows s)).
Proof. destruct cols; reflexivity. Qed.

Lemma show_result_prints cols rows (s : state World) :
  prints (trace (snd (show_result cols rows s)))
  = prints (trace s) ++ result_section cols rows.
Proof.
  destruct cols; simpl; rewrite ?prints_app; simpl;
    rewrite ?prints_app, <- ?app_assoc; reflexivity.
Qed.

(** A failure in any stage is a raise of the [try] body. *)
Lemma failed_at_raises st q s e s' :
  failed_at DB_CFG MODEL q s e s' st ->
  answer_question DB_CFG MODEL q s = (inl e, s').
Proof.
  intros H. unfold answer_question.
  destruct H as [H | schema s1 H1 H2 | schema s1 resp H1 H2 H3
                | sql s1 H1 H2 | sql s1 cols rows s2 H1 H2 H3].
  - apply bind_err. unfold generate_sql. apply bind_err. exact H.
  - apply bind_err. unfold generate_sql. rewrite (bind_ok _ _ _ _ _ H1).
    apply bind_err. exact H2.
  - apply bind_err. unfold generate_sql. rewrite (bind_ok _ _ _ _ _ H1).
    rewrite (bind_ok _ _ _ _ _ H2). rewrite H3. reflexivity.
  - rewrite (bind_ok _ _ _ _ _ H1).
    rewrite (bind_ok _ _ _ _ _ (print_run _ _)).
    apply bind_err. exact H2.
  - rewrite (bind_ok _ _ _ _ _ H1).
    rewrite (bind_ok _ _ _ _ _ (print_run _ _)).
    rewrite (bind_ok _ _ _ _ _ H2).
    rewrite (bind_ok _ _ _ _ _ (show_result_run _ _ _)).
    apply bind_err. exact H3.
Qed.

(** Conversely the [try] body raises only by a failure in one of the
    five stages. *)
Lemma raises_failed_at q s e s' :
  answer_question DB_CFG MODEL q s = (inl e, s') ->
  exists st, failed_at DB_CFG MODEL q s e s' st.
Proof.
  unfold answer_question. intros H.
  apply bind_raises in H. destruct H as [H | [sql [s1 [H1 H]]]].
  - unfold generate_sql in H.
    apply bind_raises in H. destruct H as [H | [schema [s0 [H0 H]]]].
    + exists SchemaFetch. constructor. exact H.
    + apply bind_raises in H. destruct H as [H | [resp [s2 [H2 H]]]].
      * exists Generation. econstructor; eassumption.
      * exists Guardrail.
        destruct (sql_guardrail (getattr_output_text resp)) as [e0 | a] eqn:G;
          simpl in H; inversion H; subst.
        econstructor; eassumption.
  - apply bind_raises in H. destruct H as [H | [u [s2 [H2 H]]]];
      [discriminate|].
    rewrite print_run in H2. inversion H2; subst; clear H2.
    apply bind_raises in H. destruct H as [H | [res [s3 [H3 H]]]].
    + exists Execution. econstructor; eassumption.
    + apply bind_raises in H. destruct H as [H | [u [s4 [H4 H]]]].
      * rewrite show_result_run in H. discriminate.
      * apply bind_raises in H. destruct H as [H | [answer [s5 [H5 H]]]];
          [|discriminate].
        exists Summarization. destruct res as [cols rows]. simpl in *.
        rewrite show_result_run in H4. inversion H4; subst.
        econstructor; eassumption.
Qed.

(** The handler of the loop: an [Exception] raised by the body is
    reported with the label and the turn returns. *)
Lemma turn_reports q s e s' :
  answer_question DB_CFG MODEL q s = (inl e, s') ->
  is_Exception e = true ->
  turn DB_CFG MODEL q s = (inr tt, logged (EvPrint [ERROR_TAG; str_exn e]) s').
Proof.
  intros H He. unfold turn, try_except. rewrite H, He. reflexivity.
Qed.

(** What has been printed when a stage fails. *)
Lemma failed_at_prints st q s e s' :
  failed_at DB_CFG MODEL q s e s' st ->
  exists sql cols rows,
    reached DB_CFG MODEL st q s sql cols rows /\
    prints (trace s') = prints (trace s) ++ printed_before st sql cols rows.
Proof.
  intros H.
  destruct H as [H | schema s1 H1 H2 | schema s1 resp H1 H2 H3
                | sql s1 H1 H2 | sql s1 cols rows s2 H1 H2 H3].
  - exists [], [], []. split; [exact I|]. simpl. rewrite app_nil_r.
    exact (quiet_prints_of _ _ _ _ (quiet_get_schema_ddl DB_CFG) H).
  - exists [], [], []. split; [exact I|]. simpl. rewrite app_nil_r.
    rewrite <- (quiet_prints_of _ _ _ _ (quiet_get_schema_ddl DB_CFG) H1).
    rewrite call_run in H2. inversion H2; subst. simpl.
    rewrite prints_app, app_nil_r. reflexivity.
  - exists [], [], []. split; [exact I|]. simpl. rewrite app_nil_r.
    rewrite <- (quiet_prints_of _ _ _ _ (quiet_get_schema_ddl DB_CFG) H1).
    rewrite call_run in H2. inversion H2; subst. simpl.
    rewrite prints_app, app_nil_r. reflexivity.
  - exists sql, [], []. split; [exists s1; exact H1|]. simpl.
    rewrite (quiet_prints_of _ _ _ _ (quiet_run_sql DB_CFG sql) H2).
    simpl. rewrite prints_app.
    rewrite (quiet_prints_of _ _ _ _ (quiet_generate_sql DB_CFG MODEL q) H1).
    reflexivity.
  - exists sql, cols, rows. split; [exists s1, s2; split; assumption|]. simpl.
    rewrite (quiet_prints_of _ _ _ _ (quiet_summarize MODEL q cols rows) H3).
    rewrite show_result_prints.
    rewrite (quiet_prints_of _ _ _ _ (quiet_run_sql DB_CFG sql) H2).
    simpl. rewrite prints_app.
    rewrite (quiet_prints_of _ _ _ _ (quiet_generate_sql DB_CFG MODEL q) H1).
    rewrite <- app_assoc. reflexivity.
Qed.

(** A sequence keeps the events that its first part is known to add. *)
Lemma bind_prefix {A B} P (m : M World A) (k : A -> M World B) s pre :
  (exists t, trace (snd (m s)) = pre ++ t) ->
  (forall a, appends P (k a)) ->
  exists t, trace (snd (bind m k s)) = pre ++ t.
Proof.
  intros [t Ht] Hk. unfold bind. destruct (m s) as [[e | a] s1]; simpl in Ht.
  - exists t. exact Ht.
  - destruct (Hk a s1) as [d [Ed _]]. exists (t ++ d).
    rewrite Ed, Ht, <- app_assoc. reflexivity.
Qed.

(** With a connection and a cursor, [run_sql] hands its argument to
    [cursor.execute]. *)
Lemma run_sql_executes sql s cn w1 cur w2 :
  mysql_connect DB_CFG (world s) = (inr cn, w1) ->
  cn_cursor cn w1 = (inr cur, w2) ->
  exists t,
    trace (snd (run_sql DB_CFG sql s))
    = (trace s ++ [EvConnect DB_CFG; EvCursor; EvExecute sql []]) ++ t.
Proof.
  intros Hc Hcur. unfold run_sql.
  unfold bind at 1. rewrite call_run, Hc. cbn [fst snd].
  unfold try_finally.
  match goal with
  | |- context [let (_, _) := ?body ?st in _] =>
      assert (Hb : exists t,
                 trace (snd (body st))
                 = (trace s ++ [EvConnect DB_CFG; EvCursor; EvExecute sql []]) ++ t);
      [ | destruct (body st) as [r sb]; simpl in Hb ]
  end.
  - unfold bind at 1. rewrite call_run. cbn [world fst snd]. rewrite Hcur.
    cbn [fst snd].
    apply (bind_prefix (fun _ => True)).
    + exists []. rewrite call_run. cbn [snd trace].
      rewrite app_nil_r, <- !app_assoc. reflexivity.
    + intros _. apply appends_bind; [trivial | | intros rows].
      * apply appends_call. trivial.
      * apply appends_bind; [trivial | | intros d].
        -- apply appends_peek. trivial.
        -- apply appends_ret. trivial.
  - destruct Hb as [t Ht]. rewrite call_run.
    destruct (cn_close cn (world sb)) as [[e | u] w5]; cbn [fst snd trace];
      exists (t ++ [EvClose]); rewrite Ht, <- !app_assoc; reflexivity.
Qed.

(** X15. What [generate_sql] returns is what the loop hands to
    [cursor.execute], once the connection and the cursor are there: the
    statement executed is the one printed in the [SQL] section just
    before. *)
Lemma approved_sql_reaches_execute q s sql s1 cn w1 cur w2 :
  generate_sql DB_CFG MODEL q s = (inr sql, s1) ->
  mysql_connect DB_CFG (world s1) = (inr cn, w1) ->
  cn_cursor cn w1 = (inr cur, w2) ->
  exists tail,
    trace (snd (answer_question DB_CFG MODEL q s))
    = (trace s1
       ++ [EvPrint [SQL_TAG; sql]; EvConnect DB_CFG; EvCursor; EvExecute sql []])
      ++ tail.
Proof.
  intros Hg Hc Hcur. unfold answer_question.
  rewrite (bind_ok _ _ _ _ _ Hg).
  rewrite (bind_ok _ _ _ _ _ (print_run _ _)).
  apply (bind_prefix (fun _ => True)).
  - destruct (run_sql_executes sql
                (State (world s1) (trace s1 ++ [EvPrint [SQL_TAG; sql]]))
                cn w1 cur w2 Hc Hcur) as [t Ht].
    exists t. rewrite Ht. cbn [trace]. rewrite <- !app_assoc. reflexivity.
  - intros res. apply appends_bind; [trivial | | intros _].
    + apply (appends_weaken (fun d => error_reports d = 0)); [trivial|].
      apply unreported_show_result.
    + apply appends_bind; [trivial | | intros answer].
      * apply (appends_weaken (fun d => prints d = [])); [trivial|].
        apply quiet_summarize.
      * apply appends_emit. trivial.
Qed.

End FailureFacts.

(** * The pipeline and the interactive loop *)

Section PipelineProperties.
Import Text Py App.
Context {World Conn Cursor : Type} {env : Environment World Conn Cursor}.
Variable DB_CFG : db_cfg.
Variable MODEL : pystr.
Local Open Scope py_scope.

(** C1. A candidate whose trimmed text does not begin with the keyword
    SELECT (the pattern [^\s*select\b], case ignored, does not match) is
    rejected: the guardrail raises a [ValueError] whose message carries
    the whole trimmed candidate, whatever the candidate goes on to say.
    The question ends there: after the model call nothing is executed,
    and the loop reports the error. *)
Theorem non_select_rejected q s schema s1 resp w2 candidate :
  get_schema_ddl DB_CFG s = (inr schema, s1) ->
  responses_create MODEL (sql_messages schema q) (world s1) = (inr resp, w2) ->
  getattr_output_text resp = candidate ->
  match_select (strip candidate) = false ->
  let e := Exn ValueError (NON_SELECT_HEADER ++ strip candidate) in
  let s2 := State w2 (trace s1 ++ [EvCreate MODEL (sql_messages schema q)]) in
  sql_guardrail candidate = inl e /\
  answer_question DB_CFG MODEL q s = (inl e, s2) /\
  executed (trace s2) = executed (trace s1) /\
  turn DB_CFG MODEL q s
    = (inr tt, logged (EvPrint [ERROR_TAG; NON_SELECT_HEADER ++ strip candidate]) s2).
Proof.
  intros Hschema Hresp Hcand Hm e s2.
  assert (Hg : sql_guardrail candidate = inl e).
  { unfold sql_guardrail, guard. rewrite Hm. reflexivity. }
  assert (Ha : answer_question DB_CFG MODEL q s = (inl e, s2)).
  { apply (failed_at_raises DB_CFG MODEL Guardrail).
    apply failed_guardrail with (schema := schema) (s1 := s1) (resp := resp).
    - exact Hschema.
    - rewrite call_run, Hresp. reflexivity.
    - rewrite Hcand. exact Hg. }
  repeat split.
  - exact Hg.
  - exact Ha.
  - unfold s2. simpl. rewrite executed_app. simpl. apply app_nil_r.
  - apply (turn_reports DB_CFG MODEL q s e s2 Ha). reflexivity.
Qed.

(** C5. Whatever stage of the pipeline raises an error (an instance of
    [Exception]) on a question (schema fetch, generation, guardrail,
    execution, summarization), the loop catches it, prints it once under
    the [ERROR] label, and goes on to ask for the next line: the same
    loop runs on the lines that remain. *)
Theorem errors_caught_at_loop st line rest s0 e s' :
  is_quit (strip line) = false ->
  failed_at DB_CFG MODEL (strip line) (logged (EvInput Q_PROMPT) s0) e s' st ->
  is_Exception e = true ->
  main_loop DB_CFG MODEL (line :: rest) s0
    = main_loop DB_CFG MODEL rest (logged (EvPrint [ERROR_TAG; str_exn e]) s')
  /\ (exists d,
        trace (logged (EvPrint [ERROR_TAG; str_exn e]) s')
          = trace s0 ++ EvInput Q_PROMPT :: d
        /\ error_reports d = 1)
  /\ (exists tail,
        trace (snd (main_loop DB_CFG MODEL (line :: rest) s0))
          = trace s' ++ [EvPrint [ERROR_TAG; str_exn e]; EvInput Q_PROMPT] ++ tail).
Proof.
  intros Hq Hf He.
  pose proof (failed_at_raises DB_CFG MODEL st _ _ _ _ Hf) as Ha.
  pose proof (turn_reports DB_CFG MODEL _ _ _ _ Ha He) as Ht.
  assert (Hloop : main_loop DB_CFG MODEL (line :: rest) s0
                  = main_loop DB_CFG MODEL rest
                      (logged (EvPrint [ERROR_TAG; str_exn e]) s')).
  { cbn [main_loop]. unfold bind at 1. cbn [emit]. rewrite Hq.
    exact (bind_ok _ (fun _ => main_loop DB_CFG MODEL rest) _ _ _ Ht). }
  split; [exact Hloop|]. split.
  - destruct (unreported_answer_question DB_CFG MODEL (strip line)
                (logged (EvInput Q_PROMPT) s0)) as [d [E Hd]].
    rewrite Ha in E. simpl in E.
    exists (d ++ [EvPrint [ERROR_TAG; str_exn e]]). split.
    + simpl. rewrite E, <- !app_assoc. reflexivity.
    + rewrite error_reports_app, Hd. reflexivity.
  - rewrite Hloop.
    destruct (main_loop_reads DB_CFG MODEL rest
                (logged (EvPrint [ERROR_TAG; str_exn e]) s')) as [tail E].
    exists tail. rewrite E. simpl. rewrite <- app_assoc. reflexivity.
Qed.

(** C6, as amended.  When the pipeline fails on a question, the last
    thing printed for it is the [ERROR] section with the error's message
    and no [ANSWER] section is printed.  What comes before depends on
    the stage: nothing when the failure is in the schema fetch, the
    generation or the guardrail; the [SQL] section when it is in the
    execution; the [SQL] and [RESULT] sections when it is in the
    summarization. *)
Theorem failed_question_output st q s e s' :
  failed_at DB_CFG MODEL q s e s' st ->
  is_Exception e = true ->
  exists sql cols rows,
    reached DB_CFG MODEL st q s sql cols rows /\
    prints (trace (snd (turn DB_CFG MODEL q s)))
    = prints (trace s) ++ printed_before st sql cols rows
        ++ [[ERROR_TAG; str_exn e]].
Proof.
  intros Hf He.
  pose proof (failed_at_raises DB_CFG MODEL st _ _ _ _ Hf) as Ha.
  rewrite (turn_reports DB_CFG MODEL _ _ _ _ Ha He).
  destruct (failed_at_prints DB_CFG MODEL st _ _ _ _ Hf)
    as [sql [cols [rows [Hr Hp]]]].
  exists sql, cols, rows. split; [exact Hr|].
  simpl. rewrite prints_app, Hp, <- app_assoc. reflexivity.
Qed.

(** C8. The preview that [summarize] sends to the model holds every
    column name and the first 50 rows at most, in their order: its rows
    are a prefix of the result's rows, no longer than 50, and the one
    request made carries that preview, so rows past the 50th never
    reach the model. *)
Theorem preview_bounded q cols (rows : list row) (s : state World) :
  let p := make_preview cols rows in
  columns p = cols /\
  Py.rows p = firstn 50 rows /\
  List.length (Py.rows p) = Nat.min 50 (List.length rows) /\
  rows = Py.rows p ++ skipn 50 rows /\
  trace (snd (summarize MODEL q cols rows s))
    = trace s ++ [EvCreate MODEL (answer_messages q p)] /\
  summarize MODEL q cols rows s = summarize MODEL q cols (firstn 50 rows) s.
Proof.
  intros p. repeat split.
  - apply length_firstn.
  - symmetry. apply firstn_skipn.
  - unfold summarize, bind. rewrite call_run.
    destruct (responses_create _ _ _) as [[e | r] w]; reflexivity.
  - unfold summarize, make_preview, PREVIEW_ROWS. rewrite firstn_firstn.
    reflexivity.
Qed.

(** C10. A line whose trimmed, lower-cased text is neither [exit] nor
    [quit] is a question, and so is a line that is empty once trimmed:
    after the prompt, the loop runs the pipeline on the trimmed text
    (starting with the database connection of the schema fetch) inside
    the [try], and then carries on with the remaining lines. *)
Theorem non_quit_line_is_question line rest s0 :
  is_quit (strip line) = false \/ strip line = [] ->
  is_quit (strip line) = false /\
  main_loop DB_CFG MODEL (line :: rest) s0
    = bind (try_except (answer_question DB_CFG MODEL (strip line)) report_error)
           (fun _ => main_loop DB_CFG MODEL rest)
           (logged (EvInput Q_PROMPT) s0) /\
  exists tail,
    trace (snd (main_loop DB_CFG MODEL (line :: rest) s0))
      = trace s0 ++ [EvInput Q_PROMPT; EvConnect DB_CFG] ++ tail.
Proof.
  intros H.
  assert (Hq : is_quit (strip line) = false).
  { destruct H as [H | H]; [exact H | rewrite H; reflexivity]. }
  assert (Hloop : main_loop DB_CFG MODEL (line :: rest) s0
            = bind (turn DB_CFG MODEL (strip line))
                   (fun _ => main_loop DB_CFG MODEL rest)
                   (logged (EvInput Q_PROMPT) s0)).
  { cbn [main_loop]. unfold bind at 1. cbn [emit]. rewrite Hq. reflexivity. }
  split; [exact Hq|]. split; [exact Hloop|].
  rewrite Hloop.
  destruct (opens_bind (fun _ => True) (EvConnect DB_CFG)
              (turn DB_CFG MODEL (strip line))
              (fun _ => main_loop DB_CFG MODEL rest)
              (turn_connects DB_CFG MODEL (strip line))
              (fun _ => grows_main_loop DB_CFG MODEL rest)
              (logged (EvInput Q_PROMPT) s0)) as [tail E].
  exists tail. rewrite E. simpl. rewrite <- app_assoc. reflexivity.
Qed.

End PipelineProperties.

(** * The schema snapshot *)

Section OrderFacts.
Import Text Py App.

Lemma str_le_trans a : forall b c,
  str_le a b = true -> str_le b c = true -> str_le a c = true.
Proof.
  induction a as [|x a IH]; intros b c Hab Hbc; [reflexivity|].
  destruct b as [|y b]; [discriminate|].
  destruct c as [|z c]; [discriminate|].
  simpl in *.
  apply orb_true_iff in Hab. apply orb_true_iff in Hbc. apply orb_true_iff.
  destruct Hab as [Hab | Hab], Hbc as [Hbc | Hbc].
  - left. apply Nat.ltb_lt in Hab, Hbc. apply Nat.ltb_lt. lia.
  - apply andb_prop in Hbc. destruct Hbc as [Hyz _].
    apply Nat.eqb_eq in Hyz. left. rewrite <- Hyz. exact Hab.
  - apply andb_prop in Hab. destruct Hab as [Hxy _].
    apply Nat.eqb_eq in Hxy. left. rewrite Hxy. exact Hbc.
  - apply andb_prop in Hab. apply andb_prop in Hbc.
    destruct Hab as [Hxy Hab], Hbc as [Hyz Hbc].
    apply Nat.eqb_eq in Hxy, Hyz. right.
    rewrite Hxy, Hyz, Nat.eqb_refl. simpl. exact (IH _ _ Hab Hbc).
Qed.

Lemma str_le_refl a : str_le a a = true.
Proof.
  induction a as [|x a IH]; [reflexivity|].
  simpl. rewrite Nat.eqb_refl, IH. apply orb_true_r.
Qed.

(** In a list whose neighbours are in order, the head is below every
    later element. *)
Lemma in_name_order_head a names :
  in_name_order (a :: names) = true ->
  forall j b, nth_error names j = Some b -> str_le a b = true.
Proof.
  revert a. induction names as [|c names IH]; intros a H j b Hj.
  - destruct j; discriminate.
  - cbn [in_name_order] in H. apply andb_prop in H. destruct H as [Hac Hrest].
    destruct j as [|j]; simpl in Hj.
    + inversion Hj; subst. exact Hac.
    + apply (str_le_trans a c b Hac). exact (IH c Hrest j b Hj).
Qed.

Lemma in_name_order_tail a names :
  in_name_order (a :: names) = true -> in_name_order names = true.
Proof.
  destruct names as [|c names]; [reflexivity|].
  cbn [in_name_order]. intros H. apply andb_prop in H. apply H.
Qed.

Lemma in_name_order_pairwise names :
  in_name_order names = true ->
  forall i j a b,
    i < j -> nth_error names i = Some a -> nth_error names j = Some b ->
    str_le a b = true.
Proof.
  induction names as [|c names IH]; intros H i j a b Hij Hi Hj.
  - destruct i; discriminate.
  - destruct j as [|j]; [lia|]. destruct i as [|i]; simpl in Hi, Hj.
    + inversion Hi; subst. exact (in_name_order_head a names H j b Hj).
    + apply (IH (in_name_order_tail _ _ H) i j); [lia | assumption | assumption].
Qed.

End OrderFacts.

Section SnapshotProperties.
Import Text Py App.
Context {World Conn Cursor : Type} {env : Environment World Conn Cursor}.
Variable DB_CFG : db_cfg.
Local Open Scope py_scope.

Lemma shown_tables_length cur tables w stmts w' :
  shown_tables cur tables w stmts w' -> List.length stmts = List.length tables.
Proof. induction 1; simpl; congruence. Qed.

(** When the database answers for each table, the loop returns one block
    per table, in the order of the list. *)
Lemma show_tables_run cur tables w stmts w' :
  shown_tables cur tables w stmts w' ->
  forall parts tr,
    show_tables cur tables parts (State w tr)
    = (inr (parts ++ map block stmts), State w' (tr ++ show_events tables)).
Proof.
  induction 1 as [w | t ts w w1 name stmt w2 stmts w' He Hf _ IH];
    intros parts tr; cbn [show_tables].
  - unfold ret. simpl. rewrite !app_nil_r. reflexivity.
  - unfold bind at 1. rewrite call_run. simpl. rewrite He. simpl.
    unfold bind at 1. rewrite call_run. simpl. rewrite Hf. simpl.
    unfold bind at 1. simpl. unfold bind at 1. simpl.
    rewrite IH. rewrite <- !app_assoc. reflexivity.
Qed.

(** C9. When the catalog listing reports the tables [tables] and the
    database gives a definition statement for each of them, the schema
    snapshot is made of exactly one block per reported table, in the
    order of the listing, each block a definition statement followed by
    [;], consecutive blocks separated by a blank line.  The listing is
    asked for in table-name order, so with a listing in that order the
    blocks are in lexicographic order of their tables' names. *)
Theorem schema_snapshot_blocks s cn w1 cur w2 w3 fetched w4 tables stmts w5 w6 :
  mysql_connect DB_CFG (world s) = (inr cn, w1) ->
  cn_cursor cn w1 = (inr cur, w2) ->
  cur_execute cur LIST_TABLES [cfg_database DB_CFG] w2 = (inr tt, w3) ->
  cur_fetchall cur w3 = (inr fetched, w4) ->
  first_cells fetched = inr tables ->
  shown_tables cur tables w4 stmts w5 ->
  cn_close cn w5 = (inr tt, w6) ->
  in_name_order (map str_value tables) = true ->
  exists s',
    get_schema_ddl DB_CFG s = (inr (join (nl ++ nl) (map block stmts)), s') /\
    world s' = w6 /\
    List.length (map block stmts) = List.length tables /\
    executed (trace s')
      = executed (trace s) ++ LIST_TABLES :: map SHOW_CREATE tables /\
    ends_with (lit "ORDER BY table_name") LIST_TABLES = true /\
    forall i j bi bj,
      i < j ->
      nth_error (map block stmts) i = Some bi ->
      nth_error (map block stmts) j = Some bj ->
      exists ti tj di dj,
        nth_error tables i = Some ti /\ nth_error tables j = Some tj /\
        bi = di ++ lit ";" /\ bj = dj ++ lit ";" /\
        str_le (str_value ti) (str_value tj) = true.
Proof.
  intros Hc Hcur Hlist Hfetch Hcells Hshown Hclose Horder.
  pose proof (shown_tables_length _ _ _ _ _ Hshown) as Hlen.
  eexists. split; [|split; [|split; [|split; [|split]]]].
  - unfold get_schema_ddl.
    unfold bind at 1. rewrite call_run, Hc. simpl.
    unfold try_finally.
    unfold bind at 1. rewrite call_run. simpl. rewrite Hcur. simpl.
    unfold bind at 1. rewrite call_run. simpl. rewrite Hlist. simpl.
    unfold bind at 1. rewrite call_run. simpl. rewrite Hfetch. simpl.
    unfold bind at 1. rewrite Hcells. simpl.
    unfold bind at 1. rewrite (show_tables_run _ _ _ _ _ Hshown). simpl.
    rewrite call_run. simpl. rewrite Hclose. simpl. reflexivity.
  - reflexivity.
  - rewrite length_map. exact Hlen.
  - simpl. rewrite !executed_app. simpl. rewrite app_nil_r.
    rewrite <- !app_assoc. simpl. f_equal. f_equal.
    clear. induction tables as [|t ts IH]; simpl; [reflexivity|].
    rewrite IH. reflexivity.
  - reflexivity.
  - intros i j bi bj Hij Hi Hj.
    rewrite nth_error_map in Hi, Hj.
    destruct (nth_error stmts i) as [di|] eqn:Ei; [|discriminate].
    destruct (nth_error stmts j) as [dj|] eqn:Ej; [|discriminate].
    simpl in Hi, Hj. inversion Hi; inversion Hj; subst.
    assert (Li : i < List.length tables).
    { rewrite <- Hlen. apply nth_error_Some. congruence. }
    assert (Lj : j < List.length tables).
    { rewrite <- Hlen. apply nth_error_Some. congruence. }
    destruct (nth_error tables i) as [ti|] eqn:Ti;
      [|apply nth_error_None in Ti; lia].
    destruct (nth_error tables j) as [tj|] eqn:Tj;
      [|apply nth_error_None in Tj; lia].
    exists ti, tj, di, dj. repeat split.
    apply (in_name_order_pairwise _ Horder i j); [exact Hij | |];
      rewrite nth_error_map; [rewrite Ti | rewrite Tj]; reflexivity.
Qed.

(** A call that returns was answered by the outside. *)
Lemma call_returns {A} ev (h : World -> result A * World) (s : state World) a s' :
  call ev h s = (inr a, s') ->
  h (world s) = (inr a, world s') /\ trace s' = trace s ++ [ev].
Proof.
  rewrite call_run. destruct (h (world s)) as [r w]. simpl.
  intros H. inversion H; subst. split; reflexivity.
Qed.

Lemma show_tables_returns cur tables :
  forall parts s out s',
    show_tables cur tables parts s = (inr out, s') ->
    exists stmts,
      shown_tables cur tables (world s) stmts (world s') /\
      out = parts ++ map block stmts.
Proof.
  induction tables as [|t ts IH]; intros parts s out s' H;
    cbn [show_tables] in H.
  - inversion H; subst. exists []. split; [constructor|].
    simpl. rewrite app_nil_r. reflexivity.
  - apply bind_returns in H. destruct H as [u [s1 [H1 H]]].
    apply call_returns in H1. destruct H1 as [H1 _]. destruct u.
    apply bind_returns in H. destruct H as [fetched [s2 [H2 H]]].
    apply call_returns in H2. destruct H2 as [H2 _].
    apply bind_returns in H. destruct H as [names [s3 [H3 H]]].
    apply bind_returns in H. destruct H as [part [s4 [H4 H]]].
    destruct fetched as [[|name [|cell [|extra more]]]|];
      simpl in H3; try discriminate.
    inversion H3; subst. simpl in H4.
    destruct cell as [stmt | shown]; simpl in H4; [|discriminate].
    inversion H4; subst.
    destruct (IH _ _ _ _ H) as [stmts [Hs Hout]].
    exists (stmt :: stmts). split.
    + econstructor; eassumption.
    + rewrite Hout, <- app_assoc. reflexivity.
Qed.

(** X16. A snapshot is returned only when the database answered every
    step: whenever [get_schema_ddl] returns, the connection, the cursor,
    the listing and the close succeeded, every [SHOW CREATE TABLE]
    answer was a row of exactly two cells with a text as second cell,
    and the text returned is the snapshot of those statements, one per
    listed table.  No partial snapshot is ever returned. *)
Lemma schema_snapshot_only_blocks s schema s' :
  get_schema_ddl DB_CFG s = (inr schema, s') ->
  exists cn w1 cur w2 w3 fetched w4 tables stmts w5,
    mysql_connect DB_CFG (world s) = (inr cn, w1) /\
    cn_cursor cn w1 = (inr cur, w2) /\
    cur_execute cur LIST_TABLES [cfg_database DB_CFG] w2 = (inr tt, w3) /\
    cur_fetchall cur w3 = (inr fetched, w4) /\
    first_cells fetched = inr tables /\
    shown_tables cur tables w4 stmts w5 /\
    cn_close cn w5 = (inr tt, world s') /\
    schema = snapshot stmts /\
    List.length stmts = List.length tables.
Proof.
  unfold get_schema_ddl. intros H.
  apply bind_returns in H. destruct H as [cn [s1 [H1 H]]].
  apply call_returns in H1. destruct H1 as [H1 _].
  unfold try_finally in H.
  match type of H with
  | context [let (_, _) := ?b s1 in _] => destruct (b s1) as [r s2] eqn:Hb
  end.
  destruct (call EvClose (cn_close cn) s2) as [[e | u] s3] eqn:Hclose;
    [discriminate|].
  inversion H; subst r s3. clear H.
  apply call_returns in Hclose. destruct Hclose as [Hclose _]. destruct u.
  apply bind_returns in Hb. destruct Hb as [cur [s3 [H2 Hb]]].
  apply call_returns in H2. destruct H2 as [H2 _].
  apply bind_returns in Hb. destruct Hb as [u [s4 [H3 Hb]]].
  apply call_returns in H3. destruct H3 as [H3 _]. destruct u.
  apply bind_returns in Hb. destruct Hb as [fetched [s5 [H4 Hb]]].
  apply call_returns in H4. destruct H4 as [H4 _].
  apply bind_returns in Hb. destruct Hb as [tables [s6 [H5 Hb]]].
  destruct (first_cells fetched) as [e | tables'] eqn:Hcells;
    simpl in H5; [discriminate|].
  inversion H5; subst tables' s6. clear H5.
  apply bind_returns in Hb. destruct Hb as [parts [s7 [H6 Hb]]].
  inversion Hb; subst. clear Hb.
  destruct (show_tables_returns _ _ _ _ _ _ H6) as [stmts [Hshown Hparts]].
  exists cn, (world s1), cur, (world s3), (world s4), fetched, (world s5),
    tables, stmts, (world s2).
  repeat split; try assumption.
  - rewrite Hparts. reflexivity.
  - exact (shown_tables_length _ _ _ _ _ Hshown).
Qed.

End SnapshotProperties.

(** * Runs on the scripted world *)

Section ScriptedRuns.
Import Text Py App Script.

(** C4. The guardrail checks a prefix only.  The candidate
    [SELECT 1; DROP TABLE t] begins with SELECT and carries a second
    statement, not a SELECT, after the semicolon; the guardrail approves
    it, appends the limit, and the loop hands the whole text to
    [cursor.execute]. *)
Theorem select_prefix_only :
  exists candidate second,
    candidate = lit "SELECT 1;" ++ second /\
    starts_with (lit "SELECT") candidate = true /\
    match_select second = false /\
    contains (lit "DROP TABLE") second = true /\
    sql_guardrail candidate = inr (candidate ++ lit " LIMIT 100;") /\
    executed
      (trace (snd (session NO_ROWS
                     [inr (Response (Some candidate)); says "Done."]
                     [lit "tidy up"])))
    = [ LIST_TABLES;
        SHOW_CREATE (VStr (lit "orders"));
        SHOW_CREATE (VStr (lit "products"));
        candidate ++ lit " LIMIT 100;" ].
Proof.
  exists (lit "SELECT 1; DROP TABLE t"), (lit " DROP TABLE t").
  repeat split; vm_compute; reflexivity.
Qed.

(** C6, as stated, fails.  The database refuses the approved statement:
    the [SQL] section is already printed when the error is reported, so
    the error report is not all that the turn prints. *)
Lemma error_not_sole_output :
  ~ error_is_sole_output CFG MODEL (lit "list the orders")
      (start REFUSED [says "SELECT id FROM order"]).
Proof.
  intros H.
  specialize (H (Exn DatabaseError
                   (lit "1146 (42S02): Table 'campus_vending.order' doesn't exist"))
                (answered (lit "list the orders")
                   (start REFUSED [says "SELECT id FROM order"]))
                eq_refl eq_refl).
  vm_compute in H. discriminate H.
Qed.

(** C7, at a result set with a column and no row: the loop prints the
    [RESULT] label and the table rendering of no rows; the notice
    [(no rows)] is not printed. *)
Theorem zero_rows_prints_table :
  let s := snd (session NO_ROWS
                  [says "SELECT id FROM orders WHERE id < 0"; says "None."]
                  [lit "any negative ids?"; lit "exit"]) in
  prints (trace s)
  = [ [BANNER];
      [SQL_TAG; lit "SELECT id FROM orders WHERE id < 0 LIMIT 100;"];
      [RESULT_TAG];
      [tabulate [] [lit "id"]];
      [ANSWER_TAG; lit "None."] ]
  /\ existsb (fun args => pystr_eqb (List.concat args) NO_ROWS_NOTICE) (prints (trace s))
     = false.
Proof. split; vm_compute; reflexivity. Qed.

End ScriptedRuns.

(** * The theorems at concrete sessions *)

Section ConcreteSessions.
Import Text Py App Script.

Lemma non_select_rejected_witness :
  let q := lit "remove the products" in
  let s := start NO_ROWS [says " DROP TABLE products; "] in
  let candidate := lit " DROP TABLE products; " in
  let s2 :=
    State (snd (create (world (fetched_schema s))))
          (trace (fetched_schema s) ++ [EvCreate MODEL (sql_messages SCHEMA q)]) in
  match_select (strip candidate) = false /\
  sql_guardrail candidate
    = inl (Exn ValueError (NON_SELECT_HEADER ++ lit "DROP TABLE products;")) /\
  answer_question CFG MODEL q s
    = (inl (Exn ValueError (NON_SELECT_HEADER ++ lit "DROP TABLE products;")), s2) /\
  executed (trace s2) = executed (trace (fetched_schema s)) /\
  turn CFG MODEL q s
    = (inr tt,
       logged (EvPrint [ERROR_TAG; NON_SELECT_HEADER ++ lit "DROP TABLE products;"]) s2).
Proof.
  intros q s candidate s2. split; [reflexivity|].
  exact (non_select_rejected CFG MODEL q s SCHEMA (fetched_schema s)
           (Response (Some candidate)) (snd (create (world (fetched_schema s))))
           candidate eq_refl eq_refl eq_refl eq_refl).
Defined.

Lemma errors_caught_at_loop_witness :
  let line := lit "  list the orders " in
  let rest := [lit "quit"] in
  let s0 := start REFUSED [says "SELECT id FROM order"] in
  let e := Exn DatabaseError
             (lit "1146 (42S02): Table 'campus_vending.order' doesn't exist") in
  let s' := answered (strip line) (logged (EvInput Q_PROMPT) s0) in
  is_quit (strip line) = false /\
  is_Exception e = true /\
  main_loop CFG MODEL (line :: rest) s0
    = main_loop CFG MODEL rest (logged (EvPrint [ERROR_TAG; str_exn e]) s') /\
  (exists d,
     trace (logged (EvPrint [ERROR_TAG; str_exn e]) s')
       = trace s0 ++ EvInput Q_PROMPT :: d
     /\ error_reports d = 1) /\
  (exists tail,
     trace (snd (main_loop CFG MODEL (line :: rest) s0))
       = trace s' ++ [EvPrint [ERROR_TAG; str_exn e]; EvInput Q_PROMPT] ++ tail).
Proof.
  intros line rest s0 e s'.
  split; [reflexivity|]. split; [reflexivity|].
  apply (errors_caught_at_loop CFG MODEL Execution line rest s0 e s');
    [reflexivity | | reflexivity].
  apply failed_execution
    with (sql := lit "SELECT id FROM order LIMIT 100;")
         (s1 := snd (generate_sql CFG MODEL (strip line)
                       (logged (EvInput Q_PROMPT) s0)));
    reflexivity.
Defined.

Lemma failed_question_output_witness :
  let q := lit "list the orders" in
  let s := start REFUSED [says "SELECT id FROM order"] in
  let e := Exn DatabaseError
             (lit "1146 (42S02): Table 'campus_vending.order' doesn't exist") in
  is_Exception e = true /\
  exists sql cols rows,
    reached CFG MODEL Execution q s sql cols rows /\
    prints (trace (snd (turn CFG MODEL q s)))
    = prints (trace s) ++ printed_before (env := scripted) Execution sql cols rows
        ++ [[ERROR_TAG; str_exn e]].
Proof.
  intros q s e. split; [reflexivity|].
  apply (failed_question_output CFG MODEL Execution q s e (answered q s));
    [|reflexivity].
  apply failed_execution
    with (sql := lit "SELECT id FROM order LIMIT 100;")
         (s1 := snd (generate_sql CFG MODEL q s));
    reflexivity.
Defined.

Lemma schema_snapshot_blocks_witness :
  let s := start NO_ROWS [] in
  in_name_order (map str_value [VStr (lit "orders"); VStr (lit "products")]) = true /\
  exists s',
    get_schema_ddl CFG s
      = (inr (join (nl ++ nl) (map block (map snd VENDING))), s') /\
    world s' = world (fetched_schema s) /\
    List.length (map block (map snd VENDING)) = 2 /\
    executed (trace s')
      = executed (trace s)
        ++ LIST_TABLES :: map SHOW_CREATE [VStr (lit "orders"); VStr (lit "products")] /\
    ends_with (lit "ORDER BY table_name") LIST_TABLES = true /\
    forall i j bi bj,
      i < j ->
      nth_error (map block (map snd VENDING)) i = Some bi ->
      nth_error (map block (map snd VENDING)) j = Some bj ->
      exists ti tj di dj,
        nth_error [VStr (lit "orders"); VStr (lit "products")] i = Some ti /\
        nth_error [VStr (lit "orders"); VStr (lit "products")] j = Some tj /\
        bi = di ++ lit ";" /\ bj = dj ++ lit ";" /\
        str_le (str_value ti) (str_value tj) = true.
Proof.
  intros s. split; [reflexivity|].
  refine (schema_snapshot_blocks (env := scripted) CFG s tt (world s) tt (world s)
            (fst (snd (execute LIST_TABLES (world s)), tt))
            (map (fun t => [VStr (fst t)]) VENDING)
            (snd (fetchall (snd (execute LIST_TABLES (world s)))))
            [VStr (lit "orders"); VStr (lit "products")]
            (map snd VENDING)
            (world (fetched_schema s)) (world (fetched_schema s))
            eq_refl eq_refl eq_refl eq_refl eq_refl _ eq_refl eq_refl).
  eapply shown_cons; [reflexivity | reflexivity |].
  eapply shown_cons; [reflexivity | reflexivity |].
  apply shown_nil.
Defined.

Lemma non_quit_line_is_question_witness :
  let line := lit "   " in
  let rest := [lit "exit"] in
  let s0 := start NO_ROWS [says "SELECT 1"; says "One."] in
  strip line = [] /\
  is_quit (strip line) = false /\
  main_loop CFG MODEL (line :: rest) s0
    = bind (try_except (answer_question CFG MODEL (strip line)) report_error)
           (fun _ => main_loop CFG MODEL rest)
           (logged (EvInput Q_PROMPT) s0) /\
  exists tail,
    trace (snd (main_loop CFG MODEL (line :: rest) s0))
      = trace s0 ++ [EvInput Q_PROMPT; EvConnect CFG] ++ tail.
Proof.
  intros line rest s0. split; [reflexivity|].
  apply (non_quit_line_is_question CFG MODEL line rest s0).
  right. reflexivity.
Defined.

End ConcreteSessions.

(** * Further properties of the guardrail *)

Section GuardrailMore.
Import Text Py App.

Lemma drop_while_all p s : forallb p s = true -> drop_while p s = [].
Proof.
  induction s as [|c s IH]; simpl; [reflexivity|].
  intros H. apply andb_prop in H. destruct H as [Hc Hs].
  rewrite Hc. exact (IH Hs).
Qed.

Lemma strip_blank s : forallb is_space s = true -> strip s = [].
Proof.
  intros H. unfold strip, lstrip. rewrite (drop_while_all _ _ H). reflexivity.
Qed.

(** The limit clause of the guardrail, with the token test made on the
    candidate. *)
Lemma guardrail_limit_clause_of_guard candidate approved :
  sql_guardrail candidate = inr approved ->
  if has_limit candidate
  then approved = strip candidate
  else approved
       = rstrip_chars (lit ";") (rstrip (strip candidate)) ++ lit " LIMIT 100;".
Proof.
  unfold sql_guardrail. intros H.
  destruct (guard_limit_clause _ _ H) as [Hno Hyes].
  rewrite <- (has_limit_strip candidate).
  destruct (has_limit (strip candidate)); [apply Hyes | apply Hno]; reflexivity.
Qed.

(** X1. Every text the guardrail approves is trimmed, is accepted by the
    SELECT pattern and holds a [LIMIT <digits>] token. *)
Theorem approved_is_guarded candidate approved :
  sql_guardrail candidate = inr approved ->
  strip approved = approved /\
  match_select approved = true /\
  has_limit approved = true.
Proof.
  unfold sql_guardrail, guard.
  destruct (match_select (strip candidate)) eqn:Hm; cbn [negb];
    [|discriminate].
  destruct (has_limit (strip candidate)) eqn:Hl; cbn [negb]; intros H;
    injection H as <-.
  - rewrite strip_idem. repeat split; assumption.
  - change [";"%char] with (lit ";"). fold LIMIT_SUFFIX.
    exact (limited_is_stable (strip candidate) (lstrip_strip _) Hm).
Qed.

(** X2. The guardrail approves exactly the candidates that the SELECT
    pattern accepts: optional whitespace, the word [select] in any mix
    of cases, then a word boundary.  Nothing else in the candidate
    decides between approval and rejection. *)
Theorem guardrail_approves_select candidate :
  (exists approved, sql_guardrail candidate = inr approved)
  <-> select_pattern candidate.
Proof.
  rewrite <- select_pattern_iff, <- match_select_strip.
  unfold sql_guardrail, guard.
  destruct (match_select (strip candidate)); cbn [negb]; split.
  - reflexivity.
  - intros _. eexists. reflexivity.
  - intros [a H]. discriminate.
  - discriminate.
Qed.

(** X3. A candidate made of whitespace only, the empty text included, is
    rejected with the bare header as message; so is a response that has
    no [output_text] attribute, whose text defaults to the empty one. *)
Theorem blank_output_rejected candidate :
  forallb is_space candidate = true ->
  sql_guardrail candidate = inl (Exn ValueError (NON_SELECT_HEADER ++ []))
  /\ sql_guardrail (getattr_output_text (Response None))
     = inl (Exn ValueError (NON_SELECT_HEADER ++ [])).
Proof.
  intros H. split; [|reflexivity].
  unfold sql_guardrail. rewrite (strip_blank _ H). reflexivity.
Qed.

(** X4. The keyword must end at a word boundary: a candidate in which
    the letters of [select] are followed at once by a letter, a digit or
    an underscore ([SELECTED], [select_all], [select1]) is rejected. *)
Theorem keyword_needs_boundary ws kw w rest :
  forallb is_space ws = true ->
  lower kw = lit "select" ->
  is_word w = true ->
  sql_guardrail (ws ++ kw ++ w :: rest)
  = inl (Exn ValueError (NON_SELECT_HEADER ++ strip (ws ++ kw ++ w :: rest))).
Proof.
  intros Hws Hl Hw.
  assert (Hm : match_select (ws ++ kw ++ w :: rest) = false).
  { pose proof (keyword_chars _ _ Hl eq_refl) as Hk.
    unfold match_select. rewrite (span_run is_space ws _ Hws).
    - unfold keyword_first. rewrite <- Hl, match_literal_ic_complete.
      unfold at_boundary. rewrite (last_opt_word kw); [| |exact Hk].
      + simpl. rewrite Hw. reflexivity.
      + intros ->. discriminate.
    - destruct kw as [|c kw]; [discriminate|]. simpl in Hk |- *.
      apply andb_prop in Hk. apply word_not_space, Hk. }
  unfold sql_guardrail, guard. rewrite match_select_strip, Hm. reflexivity.
Qed.

(** X17. The guardrail changes the trimmed candidate exactly when the
    candidate holds no LIMIT token, a token being: a word boundary, the
    word [limit] in any mix of cases, one or more whitespace characters,
    one or more digits, a word boundary.  A token anywhere in the text
    counts, also inside a subquery or a quoted literal. *)
Theorem limit_token_decides candidate approved :
  sql_guardrail candidate = inr approved ->
  (approved = strip candidate <-> limit_pattern candidate).
Proof.
  intros H. rewrite <- limit_pattern_iff.
  pose proof (guardrail_limit_clause_of_guard candidate approved H) as Hc.
  destruct (has_limit candidate) eqn:Hl.
  - split; [reflexivity | intros _; exact Hc].
  - split; [|discriminate]. intros He.
    assert (Ha : has_limit approved = true).
    { rewrite Hc. unfold has_limit.
      change (lit " LIMIT 100;") with LIMIT_SUFFIX. apply search_limit_suffix. }
    rewrite He, has_limit_strip, Hl in Ha. discriminate.
Qed.

(** X18. When the ceiling is appended, all the semicolons that end the
    trimmed candidate are removed first, and only those: the trimmed
    candidate is a body followed by a run of semicolons, the body does
    not end with a semicolon, and the approved text is the body followed
    by [ LIMIT 100;]. *)
Theorem trailing_semicolons_removed candidate approved :
  sql_guardrail candidate = inr approved ->
  has_limit candidate = false ->
  exists body semis,
    strip candidate = body ++ semis /\
    forallb (Ascii.eqb ";"%char) semis = true /\
    last_opt body <> Some ";"%char /\
    approved = body ++ lit " LIMIT 100;".
Proof.
  intros H Hl.
  pose proof (guardrail_limit_clause_of_guard candidate approved H) as Hc.
  rewrite Hl in Hc. rewrite rstrip_strip in Hc.
  unfold rstrip_chars in Hc.
  destruct (drop_while_end_split (mem_char (lit ";")) (strip candidate))
    as [semis [Hs Hsemis]].
  exists (drop_while_end (mem_char (lit ";")) (strip candidate)), semis.
  repeat split.
  - exact Hs.
  - clear -Hsemis. induction semis as [|c semis IH]; [reflexivity|].
    cbn [forallb] in *. apply andb_prop in Hsemis.
    destruct Hsemis as [Hc Hrest]. rewrite (IH Hrest), andb_true_r.
    unfold mem_char in Hc. simpl in Hc. rewrite orb_false_r in Hc.
    rewrite Ascii.eqb_sym. exact Hc.
  - destruct (drop_while_end_last (mem_char (lit ";")) (strip candidate))
      as [E | [r [c [E Hc']]]]; rewrite E.
    + discriminate.
    + rewrite last_opt_snoc. intros Heq. inversion Heq; subst.
      discriminate.
  - exact Hc.
Qed.

End GuardrailMore.

Lemma approved_is_guarded_witness :
  App.sql_guardrail (Text.lit "  Select name FROM products;; ")
    = inr (Text.lit "Select name FROM products LIMIT 100;") /\
  Text.strip (Text.lit "Select name FROM products LIMIT 100;")
    = Text.lit "Select name FROM products LIMIT 100;" /\
  Text.match_select (Text.lit "Select name FROM products LIMIT 100;") = true /\
  Text.has_limit (Text.lit "Select name FROM products LIMIT 100;") = true.
Proof.
  split; [reflexivity|].
  exact (approved_is_guarded (Text.lit "  Select name FROM products;; ")
           (Text.lit "Select name FROM products LIMIT 100;") eq_refl).
Defined.

Lemma guardrail_approves_select_witness :
  Text.select_pattern (Text.lit " sElEcT(1)") /\
  exists approved, App.sql_guardrail (Text.lit " sElEcT(1)") = inr approved.
Proof.
  assert (H : Text.select_pattern (Text.lit " sElEcT(1)")).
  { exists (Text.lit " "), (Text.lit "sElEcT"), (Text.lit "(1)").
    repeat split; reflexivity. }
  split; [exact H|].
  exact (proj2 (guardrail_approves_select (Text.lit " sElEcT(1)")) H).
Defined.

Lemma blank_output_rejected_witness :
  forallb Text.is_space (Text.lit "   ") = true /\
  App.sql_guardrail (Text.lit "   ")
    = inl (Py.Exn Py.ValueError (App.NON_SELECT_HEADER ++ [])).
Proof.
  split; [reflexivity|].
  exact (proj1 (blank_output_rejected (Text.lit "   ") eq_refl)).
Defined.

Lemma keyword_needs_boundary_witness :
  Text.is_word "E"%char = true /\
  App.sql_guardrail (Text.lit " SELECTED rows")
  = inl (Py.Exn Py.ValueError (App.NON_SELECT_HEADER ++ Text.lit "SELECTED rows")).
Proof.
  split; [reflexivity|].
  exact (keyword_needs_boundary (Text.lit " ") (Text.lit "SELECT") "E"%char
           (Text.lit "D rows") eq_refl eq_refl eq_refl).
Defined.

(** * Further properties of the pipeline *)

Section EventFacts.
Import Text Py App.
Context {World Conn Cursor : Type} {env : Environment World Conn Cursor}.
Variable DB_CFG : db_cfg.
Variable MODEL : pystr.
Local Open Scope py_scope.

Lemma model_calls_app a b : model_calls (a ++ b) = model_calls a + model_calls b.
Proof.
  induction a as [|ev a IH]; simpl; [reflexivity|].
  destruct ev; simpl; rewrite IH; reflexivity.
Qed.

Lemma closes_app a b : closes (a ++ b) = closes a + closes b.
Proof.
  induction a as [|ev a IH]; simpl; [reflexivity|].
  destruct ev; simpl; rewrite IH; reflexivity.
Qed.

Lemma appends_lift {A} (P : list event -> Prop) (r : result A) :
  P [] -> appends P (lift (World := World) r).
Proof.
  intros H. destruct r; simpl; [apply appends_raise | apply appends_ret];
    exact H.
Qed.

(** In a sequence, the rest may rely on what the first part is known to
    return. *)
Lemma appends_bind_post {A B} (P : list event -> Prop) (Q : A -> Prop)
    (m : M World A) (k : A -> M World B) :
  (forall d1 d2, P d1 -> P d2 -> P (d1 ++ d2)) ->
  appends P m ->
  (forall s a s1, m s = (inr a, s1) -> Q a) ->
  (forall a, Q a -> appends P (k a)) ->
  appends P (bind m k).
Proof.
  intros P_app Hm Hq Hk s. destruct (Hm s) as [d1 [E1 P1]]. unfold bind.
  destruct (m s) as [[e | a] s1] eqn:Em; simpl in E1.
  - exists d1. split; assumption.
  - destruct (Hk a (Hq s a s1 Em) s1) as [d2 [E2 P2]]. exists (d1 ++ d2).
    rewrite E2, E1, app_assoc. split; [reflexivity | apply P_app; assumption].
Qed.

Lemma Forall_app_both {A} (P : A -> Prop) d1 d2 :
  Forall P d1 -> Forall P d2 -> Forall P (d1 ++ d2).
Proof. intros H1 H2. apply Forall_app. split; assumption. Qed.

Ltac only_events :=
  repeat
    first
      [ apply appends_lift; constructor
      | apply appends_ret; constructor
      | apply appends_peek; constructor
      | apply appends_call; repeat constructor
      | apply appends_bind; [exact (Forall_app_both _) | | intros ?]
      | apply appends_try_finally; [exact (Forall_app_both _) | | ] ].

Lemma show_tables_events cur tables :
  forall parts,
    appends (Forall (schema_event DB_CFG)) (show_tables cur tables parts).
Proof.
  induction tables as [|t tables IH]; intros parts; cbn [show_tables].
  - only_events.
  - only_events. apply IH.
Qed.

(** [get_schema_ddl] records nothing but its own database calls. *)
Lemma get_schema_ddl_events :
  appends (Forall (schema_event DB_CFG)) (get_schema_ddl DB_CFG).
Proof. unfold get_schema_ddl. only_events. apply show_tables_events. Qed.

(** [run_sql] records nothing but its own database calls. *)
Lemma run_sql_events sql :
  appends (Forall (run_event DB_CFG sql)) (run_sql DB_CFG sql).
Proof. unfold run_sql. only_events. Qed.

Lemma schema_events_no_model d :
  Forall (schema_event DB_CFG) d -> model_calls d = 0.
Proof. induction 1 as [|ev d H _ IH]; [reflexivity|]. destruct H; exact IH. Qed.

Lemma schema_events_catalog d :
  Forall (schema_event DB_CFG) d -> Forall catalog_statement (executed d).
Proof.
  induction 1 as [|ev d H _ IH]; [constructor|].
  destruct H; simpl; try exact IH; constructor; try exact IH.
  - left. reflexivity.
  - right. exists t. reflexivity.
Qed.

Lemma run_events_executed sql d :
  Forall (run_event DB_CFG sql) d -> Forall (eq sql) (executed d).
Proof.
  induction 1 as [|ev d H _ IH]; [constructor|].
  destruct H; simpl; try exact IH. constructor; [reflexivity | exact IH].
Qed.

End EventFacts.

Section ReleaseFacts.
Import Text Py App.
Context {World Conn Cursor : Type} {env : Environment World Conn Cursor}.
Variable DB_CFG : db_cfg.
Local Open Scope py_scope.

Local Abbreviation unclosed := (appends (fun d => closes d = 0)).

Lemma unclosed_app d1 d2 : closes d1 = 0 -> closes d2 = 0 -> closes (d1 ++ d2) = 0.
Proof. intros H1 H2. rewrite closes_app, H1, H2. reflexivity. Qed.

Ltac unclosed_steps :=
  repeat
    first
      [ apply appends_lift; reflexivity
      | apply appends_ret; reflexivity
      | apply appends_peek; reflexivity
      | apply appends_call; reflexivity
      | apply appends_bind; [exact unclosed_app | | intros ?] ].

Lemma unclosed_show_tables cur tables :
  forall parts, unclosed (show_tables cur tables parts).
Proof.
  induction tables as [|t tables IH]; intros parts; cbn [show_tables].
  - unclosed_steps.
  - unclosed_steps. apply IH.
Qed.

(** The shape [cn = connect(); try: body finally: cn.close()]: when the
    connection fails nothing else happens; when it succeeds the body runs
    and the close is the last event, whatever the body did. *)
Lemma release_after {A} (body : Conn -> M World A) (s : state World) :
  (forall cn, unclosed (body cn)) ->
  let m := cn <- call (EvConnect DB_CFG) (mysql_connect DB_CFG) ;;
           try_finally (body cn) (call EvClose (cn_close cn)) in
  match fst (mysql_connect DB_CFG (world s)) with
  | inr cn =>
      exists d,
        trace (snd (m s)) = trace s ++ EvConnect DB_CFG :: d ++ [EvClose]
        /\ closes d = 0
  | inl e =>
      m s = (inl e, State (snd (mysql_connect DB_CFG (world s)))
                      (trace s ++ [EvConnect DB_CFG]))
  end.
Proof.
  intros Hb m. unfold m, bind. rewrite call_run.
  destruct (mysql_connect DB_CFG (world s)) as [[e | cn] w1]; cbn [fst snd].
  - reflexivity.
  - unfold try_finally.
    destruct (Hb cn (State w1 (trace s ++ [EvConnect DB_CFG]))) as [d [E Hd]].
    destruct (body cn (State w1 (trace s ++ [EvConnect DB_CFG]))) as [r s1].
    cbn [snd trace] in E. rewrite call_run.
    exists d. split; [|exact Hd].
    destruct (fst (cn_close cn (world s1))); cbn [snd trace];
      rewrite E, <- !app_assoc; reflexivity.
Qed.

(** X5. [get_schema_ddl] releases its connection on every path: if the
    connection cannot be opened the error is raised at once and nothing
    is closed; once it is open, [close] is called exactly once and is the
    last thing done, whether the fetch returned or raised. *)
Theorem get_schema_ddl_releases (s : state World) :
  match fst (mysql_connect DB_CFG (world s)) with
  | inr cn =>
      exists d,
        trace (snd (get_schema_ddl DB_CFG s))
        = trace s ++ EvConnect DB_CFG :: d ++ [EvClose]
        /\ closes d = 0
  | inl e =>
      get_schema_ddl DB_CFG s
      = (inl e, State (snd (mysql_connect DB_CFG (world s)))
                  (trace s ++ [EvConnect DB_CFG]))
  end.
Proof.
  unfold get_schema_ddl. apply release_after. intros cn.
  unclosed_steps. apply unclosed_show_tables.
Qed.

(** X6. [run_sql] releases its connection on every path, in the same
    way: no close when the connection fails, exactly one close, last,
    once it is open, also when the statement is refused. *)
Theorem run_sql_releases sql (s : state World) :
  match fst (mysql_connect DB_CFG (world s)) with
  | inr cn =>
      exists d,
        trace (snd (run_sql DB_CFG sql s))
        = trace s ++ EvConnect DB_CFG :: d ++ [EvClose]
        /\ closes d = 0
  | inl e =>
      run_sql DB_CFG sql s
      = (inl e, State (snd (mysql_connect DB_CFG (world s)))
                  (trace s ++ [EvConnect DB_CFG]))
  end.
Proof. unfold run_sql. apply release_after. intros cn. unclosed_steps. Qed.

End ReleaseFacts.

Section SessionFacts.
Import Text Py App.
Context {World Conn Cursor : Type} {env : Environment World Conn Cursor}.
Variable DB_CFG : db_cfg.
Variable MODEL : pystr.
Local Open Scope py_scope.

(** X7. [generate_sql] asks the model exactly once when the schema fetch
    returns and not at all when it raises; a rejected candidate is not
    sent back for another try. *)
Theorem generate_sql_model_calls q (s : state World) :
  model_calls (trace (snd (generate_sql DB_CFG MODEL q s)))
  = model_calls (trace s)
    + match fst (get_schema_ddl DB_CFG s) with inr _ => 1 | inl _ => 0 end.
Proof.
  unfold generate_sql.
  destruct (get_schema_ddl_events DB_CFG s) as [d [E Hd]].
  apply schema_events_no_model in Hd.
  unfold bind at 1.
  destruct (get_schema_ddl DB_CFG s) as [[e | schema] s1]; cbn [fst snd] in *.
  - rewrite E, model_calls_app, Hd. reflexivity.
  - unfold bind. rewrite call_run.
    destruct (responses_create MODEL (sql_messages schema q) (world s1))
      as [[e | resp] w2]; cbn [fst snd trace].
    + rewrite E, !model_calls_app, Hd, Nat.add_0_r. reflexivity.
    + destruct (sql_guardrail (getattr_output_text resp)); cbn [lift];
        unfold raise, ret; cbn [snd trace];
        rewrite E, !model_calls_app, Hd, Nat.add_0_r; reflexivity.
Qed.

(** X8. When the three steps of a question succeed, the turn returns and
    what it prints is, in this order: the [SQL] section with the approved
    text, the [RESULT] section, the [ANSWER] section with the summary;
    no error report is printed. *)
Theorem turn_success_output q s sql s1 cols rows s2 answer s3 :
  generate_sql DB_CFG MODEL q s = (inr sql, s1) ->
  run_sql DB_CFG sql (logged (EvPrint [SQL_TAG; sql]) s1)
    = (inr (cols, rows), s2) ->
  summarize MODEL q cols rows (snd (show_result cols rows s2))
    = (inr answer, s3) ->
  turn DB_CFG MODEL q s = (inr tt, logged (EvPrint [ANSWER_TAG; answer]) s3)
  /\ prints (trace (logged (EvPrint [ANSWER_TAG; answer]) s3))
     = prints (trace s)
       ++ [SQL_TAG; sql] :: result_section cols rows
       ++ [[ANSWER_TAG; answer]].
Proof.
  intros H1 H2 H3. split.
  - unfold turn, try_except, answer_question.
    rewrite (bind_ok _ _ _ _ _ H1).
    rewrite (bind_ok _ _ _ _ _ (print_run _ _)).
    rewrite (bind_ok _ _ _ _ _ H2).
    rewrite (bind_ok _ _ _ _ _ (show_result_run _ _ _)).
    rewrite (bind_ok _ _ _ _ _ H3). reflexivity.
  - cbn [logged trace]. rewrite prints_app.
    rewrite (quiet_prints_of _ _ _ _ (quiet_summarize MODEL q cols rows) H3).
    rewrite show_result_prints.
    rewrite (quiet_prints_of _ _ _ _ (quiet_run_sql DB_CFG sql) H2).
    cbn [logged trace]. rewrite prints_app.
    rewrite (quiet_prints_of _ _ _ _ (quiet_generate_sql DB_CFG MODEL q) H1).
    rewrite <- !app_assoc. reflexivity.
Qed.

(** A statement that may be executed: one of the schema fetch, or a text
    that came out of the guardrail. *)
Local Abbreviation safely :=
  (appends (fun d => Forall (fun op => catalog_statement op \/ guarded op)
                       (executed d))).

Lemma safely_app d1 d2 :
  Forall (fun op => catalog_statement op \/ guarded op) (executed d1) ->
  Forall (fun op => catalog_statement op \/ guarded op) (executed d2) ->
  Forall (fun op => catalog_statement op \/ guarded op) (executed (d1 ++ d2)).
Proof. intros H1 H2. rewrite executed_app. apply Forall_app. split; assumption. Qed.

Lemma safely_get_schema_ddl : safely (get_schema_ddl DB_CFG).
Proof.
  apply (appends_weaken (Forall (schema_event DB_CFG)));
    [|apply get_schema_ddl_events].
  intros d H. apply schema_events_catalog in H.
  apply (Forall_impl _ (fun op Hop => or_introl Hop) H).
Qed.

Lemma safely_generate_sql q : safely (generate_sql DB_CFG MODEL q).
Proof.
  unfold generate_sql.
  apply appends_bind; [exact safely_app | exact safely_get_schema_ddl |].
  intros schema. apply appends_bind; [exact safely_app | | intros resp].
  - apply appends_call. constructor.
  - apply appends_lift. constructor.
Qed.

(** What [generate_sql] returns came out of the guardrail. *)
Lemma generate_sql_guarded q s sql s1 :
  generate_sql DB_CFG MODEL q s = (inr sql, s1) -> guarded sql.
Proof.
  unfold generate_sql. intros H.
  apply bind_returns in H. destruct H as [schema [s0 [_ H]]].
  apply bind_returns in H. destruct H as [resp [s2 [_ H]]].
  exists (getattr_output_text resp).
  destruct (sql_guardrail (getattr_output_text resp)); simpl in H;
    inversion H; subst. reflexivity.
Qed.

Lemma safely_run_sql sql : guarded sql -> safely (run_sql DB_CFG sql).
Proof.
  intros Hg.
  apply (appends_weaken (Forall (run_event DB_CFG sql)));
    [|apply run_sql_events].
  intros d H. apply run_events_executed in H.
  apply (Forall_impl _ (fun op (Hop : sql = op) =>
                          or_intror (eq_ind sql guarded Hg op Hop)) H).
Qed.

Lemma safely_answer_question q : safely (answer_question DB_CFG MODEL q).
Proof.
  unfold answer_question.
  apply (appends_bind_post _ guarded);
    [exact safely_app | apply safely_generate_sql
    | intros s sql s1; apply generate_sql_guarded |].
  intros sql Hg.
  apply appends_bind; [exact safely_app | | intros _].
  { apply appends_emit. constructor. }
  apply appends_bind; [exact safely_app | | intros res].
  { apply safely_run_sql, Hg. }
  apply appends_bind; [exact safely_app | | intros _].
  { destruct (fst res); cbn [show_result].
    - apply appends_emit. constructor.
    - apply appends_bind; [exact safely_app | | intros _];
        apply appends_emit; constructor. }
  apply appends_bind; [exact safely_app | | intros answer].
  { unfold summarize.
    apply appends_bind; [exact safely_app | | intros resp].
    - apply appends_call. constructor.
    - apply appends_ret. constructor. }
  apply appends_emit. constructor.
Qed.

Lemma safely_main_loop stdin : safely (main_loop DB_CFG MODEL stdin).
Proof.
  induction stdin as [|line rest IH]; cbn [main_loop].
  - apply appends_bind; [exact safely_app | | intros _].
    + apply appends_emit. constructor.
    + apply appends_raise. constructor.
  - apply appends_bind; [exact safely_app | | intros _].
    + apply appends_emit. constructor.
    + destruct (is_quit (strip line)).
      * apply appends_ret. constructor.
      * apply appends_bind; [exact safely_app | | intros _; exact IH].
        unfold turn. apply appends_try_except;
          [exact safely_app | apply safely_answer_question | intros e].
        apply appends_emit. constructor.
Qed.

(** X9. In a whole session, whatever the user types and whatever the
    model and the database answer, every statement handed to
    [cursor.execute] is one of the two statements of the schema fetch or
    a text that the guardrail returned: model output that the guardrail
    did not approve is never executed. *)
Theorem session_executes_only_guarded stdin (s : state World) :
  exists d,
    trace (snd (main DB_CFG MODEL stdin s)) = trace s ++ d /\
    Forall (fun op => catalog_statement op \/ guarded op) (executed d).
Proof.
  assert (H : safely (main DB_CFG MODEL stdin)).
  { unfold main. apply appends_bind; [exact safely_app | | intros _].
    - apply appends_emit. constructor.
    - apply safely_main_loop. }
  exact (H s).
Qed.

(** A turn raises only what [except Exception] does not catch. *)
Lemma turn_raises q (s : state World) e s' :
  turn DB_CFG MODEL q s = (inl e, s') -> is_Exception e = false.
Proof.
  unfold turn, try_except.
  destruct (answer_question DB_CFG MODEL q s) as [[e0 | u] s1];
    [|discriminate].
  destruct (is_Exception e0) eqn:He.
  - unfold report_error. rewrite print_run. discriminate.
  - intros H. inversion H; subst. exact He.
Qed.

(** X10. The loop returns normally only through a quit command: if it
    returns, some line of the input is [exit] or [quit] once trimmed and
    lower-cased, and no line before it is. *)
Theorem loop_returns_only_on_quit stdin : forall (s s' : state World),
  main_loop DB_CFG MODEL stdin s = (inr tt, s') ->
  exists before line rest,
    stdin = before ++ line :: rest /\
    forallb (fun l => negb (is_quit (strip l))) before = true /\
    is_quit (strip line) = true.
Proof.
  induction stdin as [|line rest IH]; intros s s' H; cbn [main_loop] in H.
  - unfold bind, emit, raise in H. discriminate.
  - unfold bind at 1 in H. cbn [emit] in H.
    destruct (is_quit (strip line)) eqn:Hq.
    + exists [], line, rest. repeat split. exact Hq.
    + apply bind_returns in H. destruct H as [u [s1 [_ H]]].
      destruct (IH _ _ H) as [before [l [r [Hs [Hb Hl]]]]].
      exists (line :: before), l, r. subst rest. repeat split.
      * simpl. rewrite Hq, Hb. reflexivity.
      * exact Hl.
Qed.

(** X11. No error of the pipeline leaves the loop.  If the loop raises,
    then either the input ended without a quit command and what is
    raised is the [EOFError] of [input], or what is raised is not an
    instance of [Exception] (an interrupt). *)
Theorem loop_raises_only_eof stdin : forall (s s' : state World) e,
  main_loop DB_CFG MODEL stdin s = (inl e, s') ->
  (e = EOF_ERROR /\
   forallb (fun l => negb (is_quit (strip l))) stdin = true)
  \/ is_Exception e = false.
Proof.
  induction stdin as [|line rest IH]; intros s s' e H; cbn [main_loop] in H.
  - unfold bind, emit, raise in H. inversion H; subst.
    left. split; reflexivity.
  - unfold bind at 1 in H. cbn [emit] in H.
    destruct (is_quit (strip line)) eqn:Hq; [discriminate|].
    apply bind_raises in H. destruct H as [H | [u [s1 [_ H]]]].
    + right. exact (turn_raises _ _ _ _ H).
    + destruct (IH _ _ _ H) as [[He Hb] | He]; [left | right; exact He].
      split; [exact He|]. simpl. rewrite Hq, Hb. reflexivity.
Qed.

(** X12. A quit command ends the session: the lines that follow it are
    never read, so they change nothing in the result or in the trace. *)
Theorem lines_after_quit_unread before line rest : forall (s : state World),
  is_quit (strip line) = true ->
  main_loop DB_CFG MODEL (before ++ line :: rest) s
  = main_loop DB_CFG MODEL (before ++ [line]) s.
Proof.
  induction before as [|l before IH]; intros s Hq.
  - simpl app. rewrite !quit_line_ends_loop by exact Hq. reflexivity.
  - simpl app. cbn [main_loop]. unfold bind at 1 3. cbn [emit].
    destruct (is_quit (strip l)); [reflexivity|].
    unfold bind. destruct (turn DB_CFG MODEL (strip l) _) as [[e | u] s1];
      [reflexivity|]. apply IH, Hq.
Qed.

End SessionFacts.

Section FetchFacts.
Import Text Py App.
Context {World Conn Cursor : Type} {env : Environment World Conn Cursor}.
Variable DB_CFG : db_cfg.
Local Open Scope py_scope.

(** X13. A schema with no table: when the catalog listing is empty,
    [get_schema_ddl] returns the empty text, having executed the listing
    statement and nothing else, and closes the connection. *)
Theorem empty_catalog_snapshot (s : state World) cn w1 cur w2 w3 w4 w5 :
  mysql_connect DB_CFG (world s) = (inr cn, w1) ->
  cn_cursor cn w1 = (inr cur, w2) ->
  cur_execute cur LIST_TABLES [cfg_database DB_CFG] w2 = (inr tt, w3) ->
  cur_fetchall cur w3 = (inr [], w4) ->
  cn_close cn w4 = (inr tt, w5) ->
  get_schema_ddl DB_CFG s
  = (inr [],
     State w5
       (trace s
        ++ [ EvConnect DB_CFG; EvCursor;
             EvExecute LIST_TABLES [cfg_database DB_CFG];
             EvFetchall; EvClose ])).
Proof.
  intros Hc Hcur Hlist Hfetch Hclose.
  unfold get_schema_ddl.
  unfold bind at 1. rewrite call_run, Hc. cbn [fst snd].
  unfold try_finally.
  unfold bind at 1. rewrite call_run. cbn [world fst snd]. rewrite Hcur.
  cbn [fst snd].
  unfold bind at 1. rewrite call_run. cbn [world fst snd]. rewrite Hlist.
  cbn [fst snd].
  unfold bind at 1. rewrite call_run. cbn [world fst snd]. rewrite Hfetch.
  cbn [fst snd first_cells lift show_tables]. unfold bind, ret, call.
  cbn [show_tables]. unfold ret. cbv beta iota zeta. cbn [world trace].
  rewrite Hclose. cbn [join map].
  rewrite <- !app_assoc. reflexivity.
Qed.

(** X14. What [run_sql] returns is what the database gave for that very
    statement: all the rows of [fetchall], none dropped or reordered, and
    the column names read off [cursor.description] (none when there is no
    description).  It returns only when connection, cursor, execution,
    fetch and close all succeeded, and it executes the statement once,
    with no parameters. *)
Theorem run_sql_returns sql (s s' : state World) cols rows :
  run_sql DB_CFG sql s = (inr (cols, rows), s') ->
  exists cn w1 cur w2 w3 w4,
    mysql_connect DB_CFG (world s) = (inr cn, w1) /\
    cn_cursor cn w1 = (inr cur, w2) /\
    cur_execute cur sql [] w2 = (inr tt, w3) /\
    cur_fetchall cur w3 = (inr rows, w4) /\
    cols = column_names (cur_description cur w4) /\
    cn_close cn w4 = (inr tt, world s') /\
    trace s'
    = trace s
      ++ [EvConnect DB_CFG; EvCursor; EvExecute sql []; EvFetchall; EvClose].
Proof.
  unfold run_sql. intros H.
  apply bind_returns in H. destruct H as [cn [s1 [H1 H]]].
  apply call_returns in H1. destruct H1 as [H1 T1].
  unfold try_finally in H.
  match type of H with
  | context [let (_, _) := ?b s1 in _] => destruct (b s1) as [r s2] eqn:Hb
  end.
  destruct (call EvClose (cn_close cn) s2) as [[e | u] s3] eqn:Hclose;
    [discriminate|].
  inversion H; subst r s3. clear H.
  apply call_returns in Hclose. destruct Hclose as [Hclose T5]. destruct u.
  apply bind_returns in Hb. destruct Hb as [cur [s3 [H2 Hb]]].
  apply call_returns in H2. destruct H2 as [H2 T2].
  apply bind_returns in Hb. destruct Hb as [u [s4 [H3 Hb]]].
  apply call_returns in H3. destruct H3 as [H3 T3]. destruct u.
  apply bind_returns in Hb. destruct Hb as [rows' [s5 [H4 Hb]]].
  apply call_returns in H4. destruct H4 as [H4 T4].
  apply bind_returns in Hb. destruct Hb as [d [s6 [H5 Hb]]].
  unfold peek in H5. inversion H5; subst d s6. clear H5.
  unfold ret in Hb. inversion Hb; subst. clear Hb.
  exists cn, (world s1), cur, (world s3), (world s4), (world s2).
  repeat split; try assumption.
  rewrite T5, T4, T3, T2, T1, <- !app_assoc. reflexivity.
Qed.

End FetchFacts.

(** * The further properties at concrete sessions *)

Section MoreConcreteSessions.
Import Text Py App Script.

Lemma turn_success_output_witness :
  let q := lit "how many orders?" in
  let s := start TWO_ROWS [says "SELECT id FROM orders"; says " Two orders. "] in
  let sql := lit "SELECT id FROM orders LIMIT 100;" in
  let cols := [lit "id"] in
  let rows := [[VNonStr (lit "1")]; [VNonStr (lit "2")]] in
  let answer := lit "Two orders." in
  let s1 := snd (generate_sql CFG MODEL q s) in
  let s2 := snd (run_sql CFG sql (logged (EvPrint [SQL_TAG; sql]) s1)) in
  let s3 := snd (summarize MODEL q cols rows (snd (show_result cols rows s2))) in
  generate_sql CFG MODEL q s = (inr sql, s1) /\
  turn CFG MODEL q s = (inr tt, logged (EvPrint [ANSWER_TAG; answer]) s3) /\
  prints (trace (logged (EvPrint [ANSWER_TAG; answer]) s3))
  = prints (trace s)
    ++ [SQL_TAG; sql] :: result_section cols rows ++ [[ANSWER_TAG; answer]].
Proof.
  intros q s sql cols rows answer s1 s2 s3. split; [reflexivity|].
  exact (turn_success_output CFG MODEL q s sql s1 cols rows s2 answer s3
           eq_refl eq_refl eq_refl).
Defined.

Lemma loop_returns_only_on_quit_witness :
  let stdin := [lit "how many orders?"; lit " Exit "; lit "never read"] in
  let s := start TWO_ROWS [says "SELECT id FROM orders"; says "Two."] in
  main_loop CFG MODEL stdin s = (inr tt, snd (main_loop CFG MODEL stdin s)) /\
  exists before line rest,
    stdin = before ++ line :: rest /\
    forallb (fun l => negb (is_quit (strip l))) before = true /\
    is_quit (strip line) = true.
Proof.
  intros stdin s. split; [reflexivity|].
  exact (loop_returns_only_on_quit CFG MODEL stdin s
           (snd (main_loop CFG MODEL stdin s)) eq_refl).
Defined.

Lemma loop_raises_only_eof_witness :
  let stdin := [lit "how many orders?"] in
  let s := start TWO_ROWS [says "SELECT id FROM orders"; says "Two."] in
  main_loop CFG MODEL stdin s = (inl EOF_ERROR, snd (main_loop CFG MODEL stdin s)) /\
  ((EOF_ERROR = EOF_ERROR /\
    forallb (fun l => negb (is_quit (strip l))) stdin = true)
   \/ is_Exception EOF_ERROR = false).
Proof.
  intros stdin s. split; [reflexivity|].
  exact (loop_raises_only_eof CFG MODEL stdin s
           (snd (main_loop CFG MODEL stdin s)) EOF_ERROR eq_refl).
Defined.

Lemma lines_after_quit_unread_witness :
  let s := start TWO_ROWS [says "SELECT id FROM orders"; says "Two."] in
  is_quit (strip (lit "QUIT ")) = true /\
  main_loop CFG MODEL
    ([lit "how many orders?"] ++ lit "QUIT " :: [lit "drop everything"]) s
  = main_loop CFG MODEL ([lit "how many orders?"] ++ [lit "QUIT "]) s.
Proof.
  intros s. split; [reflexivity|].
  exact (lines_after_quit_unread CFG MODEL [lit "how many orders?"]
           (lit "QUIT ") [lit "drop everything"] s eq_refl).
Defined.

Lemma empty_catalog_snapshot_witness :
  let s := start_empty [] in
  cur_fetchall tt (snd (execute LIST_TABLES (world s)))
    = (inr [], snd (execute LIST_TABLES (world s))) /\
  get_schema_ddl CFG s
  = (inr [],
     State (snd (execute LIST_TABLES (world s)))
       (trace s
        ++ [ EvConnect CFG; EvCursor;
             EvExecute LIST_TABLES [cfg_database CFG];
             EvFetchall; EvClose ])).
Proof.
  intros s. split; [reflexivity|].
  exact (empty_catalog_snapshot (env := scripted) CFG s tt (world s) tt (world s)
           (snd (execute LIST_TABLES (world s)))
           (snd (execute LIST_TABLES (world s)))
           (snd (execute LIST_TABLES (world s)))
           eq_refl eq_refl eq_refl eq_refl eq_refl).
Defined.

Lemma run_sql_returns_witness :
  let s := start TWO_ROWS [] in
  let sql := lit "SELECT id FROM orders LIMIT 100;" in
  let rows := [[VNonStr (lit "1")]; [VNonStr (lit "2")]] in
  let s' := snd (run_sql CFG sql s) in
  run_sql CFG sql s = (inr ([lit "id"], rows), s') /\
  exists cn w1 cur w2 w3 w4,
    mysql_connect CFG (world s) = (inr cn, w1) /\
    cn_cursor cn w1 = (inr cur, w2) /\
    cur_execute cur sql [] w2 = (inr tt, w3) /\
    cur_fetchall cur w3 = (inr rows, w4) /\
    [lit "id"] = column_names (cur_description cur w4) /\
    cn_close cn w4 = (inr tt, world s') /\
    trace s'
    = trace s ++ [EvConnect CFG; EvCursor; EvExecute sql []; EvFetchall; EvClose].
Proof.
  intros s sql rows s'. split; [reflexivity|].
  exact (run_sql_returns CFG sql s s' [lit "id"] rows eq_refl).
Defined.

Lemma approved_sql_reaches_execute_witness :
  let q := lit "how many orders?" in
  let s := start TWO_ROWS [says "SELECT id FROM orders"; says "Two."] in
  let sql := lit "SELECT id FROM orders LIMIT 100;" in
  let s1 := snd (generate_sql CFG MODEL q s) in
  generate_sql CFG MODEL q s = (inr sql, s1) /\
  exists tail,
    trace (snd (answer_question CFG MODEL q s))
    = (trace s1
       ++ [EvPrint [SQL_TAG; sql]; EvConnect CFG; EvCursor; EvExecute sql []])
      ++ tail.
Proof.
  intros q s sql s1. split; [reflexivity|].
  exact (approved_sql_reaches_execute CFG MODEL q s sql s1 tt (world s1) tt
           (world s1) eq_refl eq_refl eq_refl).
Defined.

Lemma schema_snapshot_only_blocks_witness :
  let s := start NO_ROWS [] in
  get_schema_ddl CFG s = (inr SCHEMA, fetched_schema s) /\
  exists cn w1 cur w2 w3 fetched w4 tables stmts w5,
    mysql_connect CFG (world s) = (inr cn, w1) /\
    cn_cursor cn w1 = (inr cur, w2) /\
    cur_execute cur LIST_TABLES [cfg_database CFG] w2 = (inr tt, w3) /\
    cur_fetchall cur w3 = (inr fetched, w4) /\
    first_cells fetched = inr tables /\
    shown_tables cur tables w4 stmts w5 /\
    cn_close cn w5 = (inr tt, world (fetched_schema s)) /\
    SCHEMA = snapshot stmts /\
    List.length stmts = List.length tables.
Proof.
  intros s. split; [reflexivity|].
  exact (schema_snapshot_only_blocks CFG s SCHEMA (fetched_schema s) eq_refl).
Defined.

End MoreConcreteSessions.

Lemma limit_token_decides_witness :
  let candidate := Text.lit "SELECT * FROM (SELECT id FROM orders LIMIT 5) o" in
  App.sql_guardrail candidate = inr candidate /\
  (candidate = Text.strip candidate <-> Text.limit_pattern candidate).
Proof.
  intros candidate. split; [reflexivity|].
  exact (limit_token_decides candidate candidate eq_refl).
Defined.

Lemma trailing_semicolons_removed_witness :
  let candidate := Text.lit " SELECT id FROM orders;;; " in
  let approved := Text.lit "SELECT id FROM orders LIMIT 100;" in
  App.sql_guardrail candidate = inr approved /\
  Text.has_limit candidate = false /\
  exists body semis,
    Text.strip candidate = body ++ semis /\
    forallb (Ascii.eqb ";"%char) semis = true /\
    Text.last_opt body <> Some ";"%char /\
    approved = body ++ Text.lit " LIMIT 100;".
Proof.
  intros candidate approved. split; [reflexivity|]. split; [reflexivity|].
  exact (trailing_semicolons_removed candidate approved eq_refl eq_refl).
Defined.
